(** * Zone store of the dns package: canonical keys, Insert, Remove, Find, Sign

    A shallow embedding of [zone.go].  Strings are byte strings
    ([String.string], one [ascii] per byte), Go [int] and [int64] values are
    integers in [Z] with their 64-bit wrap-around written out, Go maps are
    finite maps ([gmap]), slices are lists, and a run-time panic is the
    result [None].  The locks of the zone and of each name are not part of
    the sequential model. *)

From Stdlib Require Import ZArith Ascii String Lia.
From stdpp Require Import base option list strings gmap fin_maps.

Local Open Scope Z_scope.

(** ** Byte strings *)

(** [strings.ToLower] on one byte.  Names in presentation form are ASCII, and
    on an ASCII string Go maps ['A'..'Z'] to ['a'..'z'] and keeps every other
    byte.  On a string with a byte from 128 on Go maps runes instead, and
    there the embedding does not follow it: what depends on the letters of
    [ToLower] is stated for ASCII strings. *)
Definition lower_byte (c : ascii) : ascii :=
  let n := N_of_ascii c in
  if ((65 <=? n) && (n <=? 90))%N then ascii_of_N (n + 32) else c.

Fixpoint ToLower (s : string) : string :=
  match s with
  | EmptyString => EmptyString
  | String c s' => String (lower_byte c) (ToLower s')
  end.

(** Go's [<] on strings: lexicographic on the bytes, a proper prefix first. *)
Fixpoint bytes_ltb (a b : string) : bool :=
  match a, b with
  | _, EmptyString => false
  | EmptyString, String _ _ => true
  | String x a', String y b' =>
      if (N_of_ascii x <? N_of_ascii y)%N then true
      else if (N_of_ascii y <? N_of_ascii x)%N then false
      else bytes_ltb a' b'
  end.

(** The strings all of whose bytes are above the dot (byte 46), as letters,
    digits and the underscore are; the hyphen and the asterisk are below. *)
Fixpoint above_dot (s : string) : bool :=
  match s with
  | EmptyString => true
  | String c s' => (46 <? N_of_ascii c)%N && above_dot s'
  end.

(** ** The name-syntax collaborator

    [IsDomainName], [Fqdn], [IsSubDomain] and [SplitLabels] belong to the
    package but not to [zone.go]; the zone store uses them as total, pure
    functions. *)
Class NameSyntax := {
  IsDomainName : string -> bool;
  Fqdn : string -> string;
  IsSubDomain : string -> string -> bool;
  SplitLabels : string -> list string
}.

(** ** Canonical keys *)

Section Keys.
Context `{NameSyntax}.

(** [toRadixName], [zone.go] lines 85-94: the loop prepends each lowercased
    label and a dot to the string built so far. *)
Definition toRadixName (d : string) : string :=
  if String.eqb d "." then "."
  else
    "." +:+ fold_left (fun s l => ToLower l +:+ "." +:+ s) (SplitLabels d) "".

(** The key as the specification words it: the labels, lowercased, in
    reverse order, each followed by a dot, behind one leading dot. *)
Definition canonicalKey (name : string) : string :=
  if String.eqb name "." then "."
  else
    "." +:+ String.concat "" (rev (map (fun l => ToLower l +:+ ".") (SplitLabels name))).
End Keys.

(** DNSSEC canonical order of two names as the specification words it: the
    label sequences, lowercased, are compared from the rightmost label on,
    each label as a byte string, a missing label before any label. *)
Fixpoint labels_ltb (a b : list string) : bool :=
  match a, b with
  | _, [] => false
  | [], _ :: _ => true
  | x :: a', y :: b' =>
      if bytes_ltb x y then true
      else if bytes_ltb y x then false
      else labels_ltb a' b'
  end.

Definition canonical_ltb `{NameSyntax} (A B : string) : bool :=
  labels_ltb (rev (map ToLower (SplitLabels A))) (rev (map ToLower (SplitLabels B))).

(** ** Resource records *)

(** Go [int] on a 64-bit platform and [int64]. *)
Definition int_wrap (x : Z) : Z := (x + 2 ^ 63) mod 2 ^ 64 - 2 ^ 63.

(** The fields of [RR_Header] that the zone store reads.  A [uint16] type
    code is an integer below 65536; the store only compares type codes. *)
Record RR_Header := mkHeader { Name : string; Rrtype : Z }.

(** A signature record behind its pointer: [sig_addr] is the address. *)
Record RR_RRSIG := mkRRSIG { sig_addr : positive; sig_Hdr : RR_Header; TypeCovered : Z }.

(** The keys handed to [Sign]. *)
Record RR_DNSKEY := mkDNSKEY { key_addr : positive; key_Hdr : RR_Header }.

(** A value of the interface type [RR]: a pointer to a signature record or a
    pointer to a record of any other Go type. *)
Inductive RR :=
  | ptr_RRSIG (s : RR_RRSIG)
  | ptr_other (addr : positive) (hdr : RR_Header).

Definition Header (r : RR) : RR_Header :=
  match r with
  | ptr_RRSIG s => sig_Hdr s
  | ptr_other _ hdr => hdr
  end.

(** The type assertion of [r] to a pointer to [RR_RRSIG]; [None] is the
    run-time panic of a failed assertion. *)
Definition as_RRSIG (r : RR) : option RR_RRSIG :=
  match r with
  | ptr_RRSIG s => Some s
  | ptr_other _ _ => None
  end.

(** Two interface values are [==] when they hold the same pointer.  The
    pointer identifies the record, so the embedding compares the record
    together with its address. *)
Global Instance RR_Header_eq_dec : EqDecision RR_Header.
Proof. solve_decision. Defined.
Global Instance RR_RRSIG_eq_dec : EqDecision RR_RRSIG.
Proof. solve_decision. Defined.
Global Instance RR_eq_dec : EqDecision RR.
Proof. solve_decision. Defined.

(** Modelled from the spec: the type codes of NS and of the DNSSEC signature
    record.  The package's type table is not among the sources; the values
    are the ones the DNS RFCs assign. *)
Definition TypeNS : Z := 2.
Definition TypeRRSIG : Z := 46.

(** ** Signature policy *)

Record SignatureConfig := mkSignatureConfig {
  Validity : Z;
  Refresh : Z;
  Jitter : Z;
  InceptionOffset : Z
}.

(** [time.Duration] is an [int64] count of nanoseconds. *)
Definition Duration_mul (a b : Z) : Z := int_wrap (a * b).
Definition Nanosecond : Z := 1.
Definition Microsecond : Z := Duration_mul 1000 Nanosecond.
Definition Millisecond : Z := Duration_mul 1000 Microsecond.
Definition Second : Z := Duration_mul 1000 Millisecond.
Definition Minute : Z := Duration_mul 60 Second.
Definition Hour : Z := Duration_mul 60 Minute.

Definition newSignatureConfig : SignatureConfig :=
  mkSignatureConfig (Duration_mul (4 * 7 * 24) Hour) (Duration_mul (3 * 24) Hour)
    (Duration_mul 12 Hour) (Duration_mul 300 Second).

Definition DefaultSignatureConfig : SignatureConfig := newSignatureConfig.

(** ** Zone data *)

Record ZoneData := mkZoneData {
  zd_Name : string;
  zd_RR : gmap Z (list RR);
  Signatures : gmap Z (list RR_RRSIG);
  NonAuth : bool
}.

Definition newZoneData (s : string) : ZoneData := mkZoneData s ∅ ∅ false.

(** Modelled from the spec: the radix tree of the zone, which is another
    package, as an index from keys to values with exact-match lookup and
    insert.  The store files each [ZoneData] pointer under one key only, so
    an update through the pointer is an update of the entry. *)
Record Zone := mkZone {
  Origin : string;
  Wildcard : Z;
  Radix : gmap string ZoneData
}.

Record Error := mkError { Err : string; err_Name : string }.

(** ** The slice surgery of [Remove] *)

(** [append(s[:i], s[i+1:]...)] for the slice [s] of length [len] that starts
    at the first cell of its backing array, of which [arr] holds the cells
    the loop can reach.  [s[i+1:]] panics when [i+1] exceeds [len];
    otherwise the cells from [i+1] up to [len] move one place down inside
    the same array, the cell at [len-1] and the ones behind it keep what
    they held, and the new slice is one shorter. *)
Definition cut (i : nat) (arr : list RR) (len : nat) : option (list RR * nat) :=
  if decide (i + 1 ≤ len)%nat then
    Some (take i arr ++ take (len - (i + 1)) (drop (i + 1) arr) ++ drop (len - 1) arr,
          (len - 1)%nat)
  else None.

(** The loop [for i, zr := range s] of [Remove], [zone.go] lines 165-170 and
    172-177.  [range] evaluates [s] once: the loop visits the indices below
    the length [s] had at the start and reads each [zr] from the backing
    array, which the body rewrites.  [todo] counts the iterations left, [len]
    is the current length of the slice stored in the map, [remove] the flag
    of the source. *)
Fixpoint scan (r : RR) (todo i : nat) (arr : list RR) (len : nat) (remove : bool)
  : option (list RR * nat * bool) :=
  match todo with
  | O => Some (arr, len, remove)
  | S todo' =>
      match arr !! i with
      | None => None
      | Some zr =>
          if decide (r = zr) then
            match cut i arr len with
            | Some (arr', len') => scan r todo' (S i) arr' len' true
            | None => None
            end
          else scan r todo' (S i) arr len remove
      end
  end.

(** The whole loop on the slice [l]: the slice left in the map and the flag,
    or [None] when the loop panics. *)
Definition remove_loop (r : RR) (l : list RR) : option (list RR * bool) :=
  match scan r (length l) 0 l (length l) false with
  | Some (arr, len, remove) => Some (take len arr, remove)
  | None => None
  end.

(** ** The zone store *)

(** [len(name) > 1 && name[0] == '*' && name[1] == '.'] *)
Definition is_wildcard (name : string) : bool :=
  match name with
  | String c0 (String c1 _) => Ascii.eqb c0 "*" && Ascii.eqb c1 "."
  | _ => false
  end.

(** The [switch] on the record type, which [Insert] runs on the new
    [ZoneData] (lines 113-125) and on the one found (lines 133-144). *)
Definition file_rr (origin : string) (r : RR) (zd : ZoneData) : option ZoneData :=
  let t := Rrtype (Header r) in
  if Z.eqb t TypeRRSIG then
    match as_RRSIG r with
    | Some sig =>
        let sigtype := TypeCovered sig in
        Some (mkZoneData (zd_Name zd) (zd_RR zd)
                (<[sigtype := (Signatures zd !!! sigtype) ++ [sig]]> (Signatures zd))
                (NonAuth zd))
    | None => None
    end
  else
    let nonauth :=
      if Z.eqb t TypeNS && negb (String.eqb (Name (Header r)) origin) then true
      else NonAuth zd in
    Some (mkZoneData (zd_Name zd) (<[t := (zd_RR zd !!! t) ++ [r]]> (zd_RR zd))
            (Signatures zd) nonauth).

Section Store.
Context `{NameSyntax}.

Definition NewZone (origin : string) : option Zone :=
  let origin := if String.eqb origin "" then "." else origin in
  if IsDomainName origin then Some (mkZone (Fqdn origin) 0 ∅) else None.

(** [Insert]: the zone after the call and the error returned, or [None]
    when the call panics. *)
Definition Insert (z : Zone) (r : RR) : option (Zone * option Error) :=
  let name := Name (Header r) in
  if negb (IsSubDomain (Origin z) name) then
    Some (z, Some (mkError "out of zone data" name))
  else
    let key := toRadixName name in
    match Radix z !! key with
    | None =>
        let wildcard :=
          if is_wildcard name then int_wrap (Wildcard z + 1) else Wildcard z in
        match file_rr (Origin z) r (newZoneData name) with
        | Some zd => Some (mkZone (Origin z) wildcard (<[key := zd]> (Radix z)), None)
        | None => None
        end
    | Some found =>
        match file_rr (Origin z) r found with
        | Some zd => Some (mkZone (Origin z) (Wildcard z) (<[key := zd]> (Radix z)), None)
        | None => None
        end
    end.

(** [Remove]: the zone after the call and the error returned, or [None]
    when the call panics.  Both arms of the [switch] scan the plain list
    [RR]: under the covered type for a signature record, under the record
    type otherwise. *)
Definition Remove (z : Zone) (r : RR) : option (Zone * option Error) :=
  let name := Name (Header r) in
  let key := toRadixName name in
  match Radix z !! key with
  | None => Some (z, None)
  | Some zd =>
      let t := Rrtype (Header r) in
      match (if Z.eqb t TypeRRSIG then TypeCovered <$> as_RRSIG r else Some t) with
      | None => None
      | Some k =>
          match remove_loop r (zd_RR zd !!! k) with
          | None => None
          | Some (l, remove) =>
              let radix :=
                if remove then
                  <[key := mkZoneData (zd_Name zd) (<[k := l]> (zd_RR zd))
                             (Signatures zd) (NonAuth zd)]> (Radix z)
                else Radix z in
              let wildcard :=
                if remove && is_wildcard name then
                  let w := int_wrap (Wildcard z - 1) in
                  if w <? 0 then 0 else w
                else Wildcard z in
              Some (mkZone (Origin z) wildcard radix, None)
          end
      end
  end.

Definition Find (z : Zone) (s : string) : option ZoneData :=
  Radix z !! toRadixName s.

End Store.

(** What a call of [Sign] leaves behind: the zone, the policy that the
    local variable [config] holds at the [return], and the result. *)
Record SignRun := mkSignRun {
  sign_zone : Zone;
  sign_config : SignatureConfig;
  sign_error : option Error
}.

Definition Sign (z : Zone) (keys : list RR_DNSKEY) (config : option SignatureConfig)
  : SignRun :=
  let config :=
    match config with
    | None => DefaultSignatureConfig
    | Some c => c
    end in
  mkSignRun z config None.

(** ** The name syntax of the specification *)

(** Modelled from the spec: label splitting, which is not in [zone.go].  A
    label ends at an unescaped dot; a backslash escapes the byte behind it,
    and both stay in the label.  The root has no label, and a name without
    the final dot ends with its last label. *)
Fixpoint split_unescaped (esc : bool) (cur s : string) : list string :=
  match s with
  | EmptyString => if String.eqb cur "" then [] else [cur]
  | String c s' =>
      if esc then split_unescaped false (cur +:+ String c "") s'
      else if Ascii.eqb c "\" then split_unescaped true (cur +:+ String c "") s'
      else if Ascii.eqb c "." then cur :: split_unescaped false "" s'
      else split_unescaped false (cur +:+ String c "") s'
  end.

Definition spec_SplitLabels (s : string) : list string :=
  if String.eqb s "." then [] else split_unescaped false "" s.

Fixpoint ends_with_dot (s : string) : bool :=
  match s with
  | EmptyString => false
  | String c EmptyString => Ascii.eqb c "."
  | String _ s' => ends_with_dot s'
  end.

(** Modelled from the spec: [Fqdn] ensures the trailing root dot. *)
Definition spec_Fqdn (s : string) : string :=
  if ends_with_dot s then s else s +:+ ".".

Fixpoint labels_prefixb (a b : list string) : bool :=
  match a, b with
  | [], _ => true
  | _ :: _, [] => false
  | x :: a', y :: b' => String.eqb x y && labels_prefixb a' b'
  end.

(** Modelled from the spec: [IsSubDomain origin name] holds when [name] is
    the origin or a subdomain of it, that is when the labels of the origin
    are the last labels of [name], letter case apart. *)
Definition spec_IsSubDomain (parent child : string) : bool :=
  labels_prefixb (rev (map ToLower (spec_SplitLabels parent)))
                 (rev (map ToLower (spec_SplitLabels child))).

(** Modelled from the spec: a domain name is a dot-separated sequence of
    labels; the model accepts a non-empty string none of whose labels is
    empty. *)
Definition spec_IsDomainName (s : string) : bool :=
  negb (String.eqb s "") &&
  forallb (fun l => negb (String.eqb l "")) (spec_SplitLabels s).

Definition spec_syntax : NameSyntax :=
  {| IsDomainName := spec_IsDomainName;
     Fqdn := spec_Fqdn;
     IsSubDomain := spec_IsSubDomain;
     SplitLabels := spec_SplitLabels |}.

(** ** Sequences of calls *)

Inductive Op :=
  | OpInsert (r : RR)
  | OpRemove (r : RR).

Section Runs.
Context `{NameSyntax}.

Definition call (z : Zone) (op : Op) : option (Zone * option Error) :=
  match op with
  | OpInsert r => Insert z r
  | OpRemove r => Remove z r
  end.

(** The zone after the calls [ops], made one after the other on [z];
    [None] when one of them panics. *)
Fixpoint run (z : Zone) (ops : list Op) : option Zone :=
  match ops with
  | [] => Some z
  | op :: ops' =>
      match call z op with
      | Some (z', _) => run z' ops'
      | None => None
      end
  end.
End Runs.

(** An entry of the index whose owner name begins with ["*."]. *)
Definition wildcard_entry (kv : string * ZoneData) : Prop :=
  is_wildcard (zd_Name kv.2) = true.

Global Instance wildcard_entry_dec kv : Decision (wildcard_entry kv).
Proof. unfold wildcard_entry. apply _. Defined.

(** The number of owner names in the index that begin with ["*."]. *)
Definition wildcard_names (z : Zone) : nat :=
  size (filter wildcard_entry (Radix z)).

(** A call that can take a record away from a wildcard name. *)
Definition removes_at_wildcard (op : Op) : bool :=
  match op with
  | OpInsert _ => false
  | OpRemove r => is_wildcard (Name (Header r))
  end.

(** The list the index holds for [name] under the type [t]. *)
Definition stored `{NameSyntax} (z : Zone) (name : string) (t : Z) : list RR :=
  match Find z name with
  | Some zd => zd_RR zd !!! t
  | None => []
  end.

(** The signatures the index holds for [name] under the covered type [t]. *)
Definition stored_signatures `{NameSyntax} (z : Zone) (name : string) (t : Z)
  : list RR_RRSIG :=
  match Find z name with
  | Some zd => Signatures zd !!! t
  | None => []
  end.

(** ** Sample records *)

Definition TypeA : Z := 1.

Definition zone_example : Zone := mkZone "example." 0 ∅.

Definition rr_a : RR := ptr_other 1 (mkHeader "www.example." TypeA).
Definition rr_b : RR := ptr_other 2 (mkHeader "www.example." TypeA).
Definition rr_sig : RR :=
  ptr_RRSIG (mkRRSIG 3 (mkHeader "www.example." TypeRRSIG) TypeA).
Definition rr_w1 : RR := ptr_other 4 (mkHeader "*.example." TypeA).
Definition rr_w2 : RR := ptr_other 5 (mkHeader "*.example." TypeA).
Definition rr_ns_sub : RR := ptr_other 7 (mkHeader "sub.example." TypeNS).
Definition rr_out : RR := ptr_other 8 (mkHeader "foo.other." TypeA).

(** ** The removal loop, read as a function of the list

    [after_cut] is the loop behind a cut, on the cells [R] it has not read
    yet: every cell behind the slice holds [z], the last record of the list.
    A record equal to [r] is cut out and the record behind it moves into the
    cell just read, so the loop never looks at it.  When [R] is used up the
    loop still reads the cells behind the slice, and a [z] equal to [r] sends
    it out of range. *)
Fixpoint after_cut (r z : RR) (R : list RR) : option (list RR) :=
  match R with
  | [] => if decide (r = z) then None else Some []
  | x :: R' =>
      if decide (r = x) then
        match R' with
        | [] => None
        | y :: R'' => cons y <$> after_cut r z R''
        end
      else cons x <$> after_cut r z R'
  end.

(** [loop_spec] is the loop from its start: up to the first record equal to
    [r] nothing moves. *)
Fixpoint loop_spec (r : RR) (l : list RR) : option (list RR * bool) :=
  match l with
  | [] => Some ([], false)
  | x :: l' =>
      if decide (r = x) then
        match l' with
        | [] => Some ([], true)
        | y :: l'' =>
            match after_cut r (default y (last l'')) l'' with
            | Some R => Some (y :: R, true)
            | None => None
            end
        end
      else
        match loop_spec r l' with
        | Some (l1, remove) => Some (x :: l1, remove)
        | None => None
        end
  end.

(** The key of the plain list that [Remove] scans for [r]; [None] when the
    type assertion of the signature arm fails. *)
Definition scanned_type (r : RR) : option Z :=
  if Z.eqb (Rrtype (Header r)) TypeRRSIG then TypeCovered <$> as_RRSIG r
  else Some (Rrtype (Header r)).

(** The plain list that [Remove] scans for [r] in the zone [z]. *)
Definition scanned_list `{NameSyntax} (z : Zone) (r : RR) : list RR :=
  match scanned_type r with
  | Some k => stored z (Name (Header r)) k
  | None => []
  end.

(** The sample zone with one record at ["www.example."]. *)
Definition zone_www : Zone :=
  mkZone "example." 0
    {[ ".example.www." := mkZoneData "www.example." {[ TypeA := [rr_a] ]} ∅ false ]}.

(** The sample zone with one record at the wildcard name ["*.example."]. *)
Definition zone_star : Zone :=
  mkZone "example." 1
    {[ ".example.*." := mkZoneData "*.example." {[ TypeA := [rr_w1] ]} ∅ false ]}.

(** What [Insert] of [r] adds to the plain list of the type [t] and to the
    signature list of the covered type [t], read off the [switch]. *)
Definition filed_plain (r : RR) (t : Z) : list RR :=
  if decide (Rrtype (Header r) <> TypeRRSIG /\ t = Rrtype (Header r)) then [r] else [].

Definition filed_signature (r : RR) (t : Z) : list RR_RRSIG :=
  match as_RRSIG r with
  | Some sig =>
      if decide (Rrtype (Header r) = TypeRRSIG /\ t = TypeCovered sig) then [sig] else []
  | None => []
  end.

(** Every entry of the index sits under the key of its name, every record
    sits in the plain list of its own type at the key of its own name, which
    is in the zone, an NS record off the origin sits in an entry flagged
    [NonAuth], and every signature sits in the list of its covered type. *)
Definition well_filed `{NameSyntax} (z : Zone) : Prop :=
  forall key zd, Radix z !! key = Some zd ->
    key = toRadixName (zd_Name zd)
    /\ (forall t r, r ∈ zd_RR zd !!! t ->
          Rrtype (Header r) = t /\ t <> TypeRRSIG
          /\ toRadixName (Name (Header r)) = key
          /\ IsSubDomain (Origin z) (Name (Header r)) = true
          /\ (t = TypeNS -> Name (Header r) <> Origin z -> NonAuth zd = true))
    /\ (forall t sig, sig ∈ Signatures zd !!! t ->
          TypeCovered sig = t /\ Rrtype (sig_Hdr sig) = TypeRRSIG
          /\ toRadixName (Name (sig_Hdr sig)) = key
          /\ IsSubDomain (Origin z) (Name (sig_Hdr sig)) = true).

(** The record a call is made with. *)
Definition op_record (op : Op) : RR :=
  match op with
  | OpInsert r => r
  | OpRemove r => r
  end.

(** The strings of ASCII bytes, on which [strings.ToLower] is bytewise and
    [ToLower] is faithful to it. *)
Fixpoint is_ascii (s : string) : bool :=
  match s with
  | EmptyString => true
  | String c s' => (N_of_ascii c <? 128)%N && is_ascii s'
  end.

(** The labels written without escapes in ASCII bytes above the dot: no
    backslash, so that the label in presentation form is the label itself. *)
Fixpoint plain_label (s : string) : bool :=
  match s with
  | EmptyString => true
  | String c s' =>
      (46 <? N_of_ascii c)%N && (N_of_ascii c <? 128)%N
      && negb (Ascii.eqb c "\") && plain_label s'
  end.


(** * Properties *)

(** ** Strings *)

Lemma str_app_cons c (s t : string) : String c s +:+ t = String c (s +:+ t).
Proof. reflexivity. Qed.

Lemma str_app_nil_l (t : string) : "" +:+ t = t.
Proof. reflexivity. Qed.

Lemma str_app_nil_r (s : string) : s +:+ "" = s.
Proof. induction s as [|c s IH]; [reflexivity|]. by rewrite str_app_cons, IH. Qed.

Lemma str_app_assoc (s t u : string) : (s +:+ t) +:+ u = s +:+ t +:+ u.
Proof.
  induction s as [|c s IH]; [reflexivity|].
  by rewrite !str_app_cons, IH.
Qed.

Lemma concat_empty_cons (x : string) (xs : list string) :
  String.concat "" (x :: xs) = x +:+ String.concat "" xs.
Proof.
  destruct xs as [|y ys]; simpl.
  - by rewrite str_app_nil_r.
  - by rewrite str_app_nil_l.
Qed.

Lemma concat_empty_snoc (xs : list string) (x : string) :
  String.concat "" (xs ++ [x]) = String.concat "" xs +:+ x.
Proof.
  induction xs as [|y ys IH].
  - simpl. by rewrite str_app_nil_l.
  - change ((y :: ys) ++ [x]) with (y :: (ys ++ [x])).
    by rewrite !concat_empty_cons, IH, str_app_assoc.
Qed.

(** The loop of [toRadixName] builds the reversed concatenation in front of
    what it started with. *)
Lemma prepend_loop (f : string -> string) (ls : list string) (acc : string) :
  fold_left (fun s l => f l +:+ s) ls acc
  = String.concat "" (rev (map f ls)) +:+ acc.
Proof.
  revert acc. induction ls as [|l ls IH]; intros acc; simpl.
  - by rewrite str_app_nil_l.
  - by rewrite IH, concat_empty_snoc, str_app_assoc.
Qed.

(** The body of the loop, read with the label and its dot put together. *)
Lemma loop_body_assoc (ls : list string) (acc : string) :
  fold_left (fun s l => ToLower l +:+ "." +:+ s) ls acc
  = fold_left (fun s l => (ToLower l +:+ ".") +:+ s) ls acc.
Proof.
  revert acc. induction ls as [|l ls IH]; intros acc; simpl; [reflexivity|].
  by rewrite str_app_assoc, IH.
Qed.

(** ** Canonical keys *)

(** C2: [toRadixName] maps ["."] to ["."] and every other name to one dot
    followed by its labels, as [SplitLabels] cuts them, lowercased, in
    reverse order, each label followed by a dot. *)
Theorem toRadixName_canonicalKey `{NameSyntax} (d : string) :
  toRadixName d = canonicalKey d.
Proof.
  unfold toRadixName, canonicalKey.
  destruct (String.eqb d "."); [reflexivity|].
  f_equal.
  by rewrite loop_body_assoc, (prepend_loop (fun l => ToLower l +:+ ".")), str_app_nil_r.
Qed.

(** The splitting of the specification keeps an escaped dot inside its
    label, and the key of the root is the root. *)
Example toRadixName_samples :
  @toRadixName spec_syntax "." = "."
  /\ @toRadixName spec_syntax "Www.Example.COM." = ".com.example.www."
  /\ @toRadixName spec_syntax "a\.b.example." = ".example.a\.b."
  /\ @toRadixName spec_syntax "*.example" = ".example.*.".
Proof. repeat split; reflexivity. Qed.

(** What the reversal does achieve: on labels whose bytes are all above the
    dot, the order of the keys is the canonical order. *)
Lemma bytes_ltb_nil_r (a : string) : bytes_ltb a "" = false.
Proof. by destruct a. Qed.

Lemma bytes_ltb_dot (s t : string) : bytes_ltb ("." +:+ s) ("." +:+ t) = bytes_ltb s t.
Proof. reflexivity. Qed.

Lemma bytes_ltb_cons (c d : ascii) (a b : string) :
  bytes_ltb (String c a) (String d b)
  = if (N_of_ascii c <? N_of_ascii d)%N then true
    else if (N_of_ascii d <? N_of_ascii c)%N then false
    else bytes_ltb a b.
Proof. reflexivity. Qed.

Lemma dot_byte : N_of_ascii "." = 46%N.
Proof. reflexivity. Qed.

Lemma bytes_ltb_label (x y s t : string) :
  above_dot x = true -> above_dot y = true ->
  bytes_ltb (x +:+ "." +:+ s) (y +:+ "." +:+ t)
  = if bytes_ltb x y then true else if bytes_ltb y x then false else bytes_ltb s t.
Proof.
  revert y. induction x as [|c x IH]; intros [|d y] Hx Hy; simpl in Hx, Hy.
  - reflexivity.
  - apply andb_prop in Hy as [Hd _].
    rewrite str_app_nil_l, !str_app_cons, bytes_ltb_cons, dot_byte. by rewrite Hd.
  - apply andb_prop in Hx as [Hc _].
    rewrite str_app_nil_l, !str_app_cons, bytes_ltb_cons, dot_byte.
    apply N.ltb_lt in Hc.
    destruct (N.ltb_spec (N_of_ascii c) 46); [lia|].
    by destruct (N.ltb_spec 46 (N_of_ascii c)); [|lia].
  - apply andb_prop in Hx as [_ Hx]. apply andb_prop in Hy as [_ Hy].
    rewrite !str_app_cons, !bytes_ltb_cons.
    destruct (N.ltb_spec (N_of_ascii c) (N_of_ascii d)); [reflexivity|].
    destruct (N.ltb_spec (N_of_ascii d) (N_of_ascii c)); [reflexivity|].
    by apply IH.
Qed.

Lemma key_order_of_labels (la lb : list string) :
  forallb above_dot la = true -> forallb above_dot lb = true ->
  bytes_ltb (String.concat "" (map (fun l => l +:+ ".") la))
            (String.concat "" (map (fun l => l +:+ ".") lb))
  = labels_ltb la lb.
Proof.
  revert lb. induction la as [|x la IH]; intros [|y lb] Ha Hb.
  - reflexivity.
  - change (map _ (y :: lb)) with ((y +:+ ".") :: map (fun l => l +:+ ".") lb).
    rewrite concat_empty_cons. by destruct y.
  - apply bytes_ltb_nil_r.
  - change (map _ (x :: la)) with ((x +:+ ".") :: map (fun l => l +:+ ".") la).
    change (map _ (y :: lb)) with ((y +:+ ".") :: map (fun l => l +:+ ".") lb).
    simpl in Ha, Hb.
    apply andb_prop in Ha as [Hx Ha]. apply andb_prop in Hb as [Hy Hb].
    rewrite !concat_empty_cons, !str_app_assoc, bytes_ltb_label by done.
    simpl. by rewrite IH.
Qed.

Lemma toRadixName_labels `{NameSyntax} (d : string) :
  (d = "." -> SplitLabels d = []) ->
  toRadixName d
  = "." +:+ String.concat "" (map (fun l => l +:+ ".") (rev (map ToLower (SplitLabels d)))).
Proof.
  intros Hroot. unfold toRadixName.
  destruct (String.eqb_spec d ".") as [Hd|_].
  - by rewrite (Hroot Hd).
  - f_equal.
    rewrite loop_body_assoc, (prepend_loop (fun l => ToLower l +:+ ".")), str_app_nil_r.
    by rewrite map_rev, map_map.
Qed.

(** For two names whose lowercased labels have all their bytes above the dot,
    the order of the keys of the embedding is its canonical order. *)
Lemma toRadixName_order_above_dot `{NameSyntax} (A B : string) :
  (A = "." -> SplitLabels A = []) ->
  (B = "." -> SplitLabels B = []) ->
  forallb above_dot (map ToLower (SplitLabels A)) = true ->
  forallb above_dot (map ToLower (SplitLabels B)) = true ->
  bytes_ltb (toRadixName A) (toRadixName B) = canonical_ltb A B.
Proof.
  intros HA HB HlA HlB.
  rewrite !toRadixName_labels, bytes_ltb_dot by done.
  unfold canonical_ltb. apply key_order_of_labels.
  - rewrite forallb_forall in *. intros l Hl. apply HlA.
    apply in_rev. exact Hl.
  - rewrite forallb_forall in *. intros l Hl. apply HlB.
    apply in_rev. exact Hl.
Qed.

(** C1, at a pair of names where it fails: ["a.example."] precedes
    ["a-b.example."] in canonical order, their labels ["a"] and ["a-b"]
    being a prefix and its extension, yet the key of ["a-b.example."] is the
    smaller one, the hyphen being a smaller byte than the dot that closes
    the label ["a"]. *)
Theorem toRadixName_hyphen_order :
  @canonical_ltb spec_syntax "a.example." "a-b.example." = true
  /\ @toRadixName spec_syntax "a.example." = ".example.a."
  /\ @toRadixName spec_syntax "a-b.example." = ".example.a-b."
  /\ bytes_ltb (@toRadixName spec_syntax "a.example.")
               (@toRadixName spec_syntax "a-b.example.") = false
  /\ bytes_ltb (@toRadixName spec_syntax "a-b.example.")
               (@toRadixName spec_syntax "a.example.") = true.
Proof. repeat split; reflexivity. Qed.

(** ** Signing *)

(** C9: without a policy [Sign] works with the default one, whose validity
    is 4 weeks, refresh 3 days, jitter 12 hours and inception offset 300
    seconds, each counted in nanoseconds. *)
Theorem Sign_nil_default_policy (z : Zone) (keys : list RR_DNSKEY) :
  sign_config (Sign z keys None) = DefaultSignatureConfig
  /\ Validity DefaultSignatureConfig = 4 * 7 * 24 * 3600 * 1000000000
  /\ Refresh DefaultSignatureConfig = 3 * 24 * 3600 * 1000000000
  /\ Jitter DefaultSignatureConfig = 12 * 3600 * 1000000000
  /\ InceptionOffset DefaultSignatureConfig = 300 * 1000000000.
Proof. repeat split; reflexivity. Qed.

(** C10: [Sign] returns no error and leaves the zone as it was, whatever the
    keys and the policy. *)
Theorem Sign_returns_nil_zone_unchanged
  (z : Zone) (keys : list RR_DNSKEY) (config : option SignatureConfig) :
  sign_error (Sign z keys config) = None
  /\ sign_zone (Sign z keys config) = z.
Proof. split; reflexivity. Qed.

(** ** Insert *)

(** C6: for a record whose owner name [IsSubDomain] rejects, [Insert]
    returns the out-of-zone error with that name, and the zone after the
    call is the zone before it. *)
Theorem Insert_out_of_zone `{NameSyntax} (z : Zone) (r : RR) :
  IsSubDomain (Origin z) (Name (Header r)) = false ->
  Insert z r = Some (z, Some (mkError "out of zone data" (Name (Header r)))).
Proof. intros Hout. unfold Insert. by rewrite Hout. Qed.

Lemma Insert_out_of_zone_witness :
  @IsSubDomain spec_syntax (Origin zone_example) (Name (Header rr_out)) = false
  /\ @Insert spec_syntax zone_example rr_out
     = Some (zone_example, Some (mkError "out of zone data" "foo.other.")).
Proof.
  split; [reflexivity|].
  apply (@Insert_out_of_zone spec_syntax zone_example rr_out). reflexivity.
Defined.

(** [Insert] of an in-zone record: the entry of its key is the filed
    [ZoneData], found or new. *)
Lemma Insert_in_zone `{NameSyntax} (z : Zone) (r : RR) (zd : ZoneData) :
  IsSubDomain (Origin z) (Name (Header r)) = true ->
  file_rr (Origin z) r
    (default (newZoneData (Name (Header r))) (Find z (Name (Header r)))) = Some zd ->
  exists z',
    Insert z r = Some (z', None)
    /\ Origin z' = Origin z
    /\ Radix z' = <[toRadixName (Name (Header r)) := zd]> (Radix z).
Proof.
  intros Hin Hfile. unfold Insert, Find in *. rewrite Hin. simpl.
  destruct (Radix z !! toRadixName (Name (Header r))) as [found|]; simpl in Hfile;
    rewrite Hfile; eexists; repeat split.
Qed.

Lemma Find_after_insert `{NameSyntax} (z z' : Zone) (name : string) (zd : ZoneData) :
  Radix z' = <[toRadixName name := zd]> (Radix z) ->
  Find z' name = Some zd.
Proof. intros Hr. unfold Find. rewrite Hr. apply lookup_insert_eq. Qed.

(** [file_rr] on a record that is no signature: the flag and the list. *)
Lemma file_rr_plain (origin : string) (r : RR) (zd : ZoneData) :
  Rrtype (Header r) <> TypeRRSIG ->
  exists zd',
    file_rr origin r zd = Some zd'
    /\ zd_Name zd' = zd_Name zd
    /\ zd_RR zd' !!! Rrtype (Header r) = (zd_RR zd !!! Rrtype (Header r)) ++ [r]
    /\ Signatures zd' = Signatures zd
    /\ NonAuth zd' =
       (if Z.eqb (Rrtype (Header r)) TypeNS && negb (String.eqb (Name (Header r)) origin)
        then true else NonAuth zd).
Proof.
  intros Ht. unfold file_rr.
  destruct (Z.eqb_spec (Rrtype (Header r)) TypeRRSIG) as [?|_]; [done|].
  eexists. split; [reflexivity|]. simpl.
  by rewrite lookup_total_insert_eq.
Qed.

(** [file_rr] on a signature record. *)
Lemma file_rr_signature (origin : string) (r : RR) (sig : RR_RRSIG) (zd : ZoneData) :
  Rrtype (Header r) = TypeRRSIG ->
  as_RRSIG r = Some sig ->
  exists zd',
    file_rr origin r zd = Some zd'
    /\ zd_Name zd' = zd_Name zd
    /\ zd_RR zd' = zd_RR zd
    /\ Signatures zd' !!! TypeCovered sig = (Signatures zd !!! TypeCovered sig) ++ [sig]
    /\ NonAuth zd' = NonAuth zd.
Proof.
  intros Ht Hsig. unfold file_rr. rewrite Ht, Hsig. simpl.
  eexists. split; [reflexivity|]. simpl.
  by rewrite lookup_total_insert_eq.
Qed.




(** C5, as amended: after an [Insert] that returns without error, [Find] at
    the owner name returns a [ZoneData]; it holds the record in the list of
    the record's type when the record is no signature, and in the signature
    list of the covered type when it is one. *)
Theorem Insert_then_Find `{NameSyntax} (z z' : Zone) (r : RR) :
  Insert z r = Some (z', None) ->
  exists zd,
    Find z' (Name (Header r)) = Some zd
    /\ (Rrtype (Header r) <> TypeRRSIG -> r ∈ zd_RR zd !!! Rrtype (Header r))
    /\ (Rrtype (Header r) = TypeRRSIG ->
        exists sig, as_RRSIG r = Some sig /\ sig ∈ Signatures zd !!! TypeCovered sig).
Proof.
  intros Hins. unfold Insert in Hins.
  destruct (IsSubDomain (Origin z) (Name (Header r))); simpl in Hins; [|discriminate].
  set (zd0 := default (newZoneData (Name (Header r))) (Find z (Name (Header r)))).
  assert (exists zd, file_rr (Origin z) r zd0 = Some zd
                     /\ Radix z' = <[toRadixName (Name (Header r)) := zd]> (Radix z))
    as (zd & Hfile & Hradix).
  { unfold zd0, Find.
    destruct (Radix z !! toRadixName (Name (Header r))) as [found|]; simpl;
      destruct (file_rr (Origin z) r _) as [zd|]; [|discriminate| |discriminate];
      injection Hins as <-; by exists zd. }
  exists zd. split; [by eapply Find_after_insert|]. split.
  - intros Ht. destruct (file_rr_plain (Origin z) r zd0 Ht) as (zd' & Hfile' & _ & Hl & _).
    rewrite Hfile in Hfile'. injection Hfile' as <-.
    rewrite Hl. apply elem_of_app. right. apply list_elem_of_singleton. reflexivity.
  - intros Ht. destruct (as_RRSIG r) as [sig|] eqn:Hsig.
    + exists sig. split; [reflexivity|].
      destruct (file_rr_signature (Origin z) r sig zd0 Ht Hsig) as (zd' & Hfile' & _ & _ & Hl & _).
      rewrite Hfile in Hfile'. injection Hfile' as <-.
      rewrite Hl. apply elem_of_app. right. apply list_elem_of_singleton. reflexivity.
    + unfold file_rr in Hfile. rewrite Ht, Hsig in Hfile. discriminate.
Qed.

Lemma Insert_then_Find_witness :
  exists zd,
    @Find spec_syntax
      (mkZone "example." 0
         {[ ".example.www." := mkZoneData "www.example." {[ TypeA := [rr_a] ]} ∅ false ]})
      "www.example." = Some zd
    /\ rr_a ∈ zd_RR zd !!! TypeA.
Proof.
  destruct (@Insert_then_Find spec_syntax zone_example
              (mkZone "example." 0
                 {[ ".example.www." := mkZoneData "www.example." {[ TypeA := [rr_a] ]} ∅ false ]})
              rr_a) as (zd & Hfind & Hplain & _); [reflexivity|].
  exists zd. split; [exact Hfind|]. apply Hplain. discriminate.
Defined.

(** C5, where it fails: a signature record goes to the signature list of
    its covered type, and the list of its own type stays empty. *)
Lemma Insert_RRSIG_not_under_its_type :
  @Insert spec_syntax zone_example rr_sig
  = Some (mkZone "example." 0
            {[ ".example.www." :=
                 mkZoneData "www.example." ∅
                   {[ TypeA := [mkRRSIG 3 (mkHeader "www.example." TypeRRSIG) TypeA] ]}
                   false ]}, None)
  /\ forall zd,
       @Find spec_syntax
         (mkZone "example." 0
            {[ ".example.www." :=
                 mkZoneData "www.example." ∅
                   {[ TypeA := [mkRRSIG 3 (mkHeader "www.example." TypeRRSIG) TypeA] ]}
                   false ]}) "www.example." = Some zd ->
       zd_RR zd !!! Rrtype (Header rr_sig) = [] /\ rr_sig ∉ zd_RR zd !!! Rrtype (Header rr_sig).
Proof.
  split; [reflexivity|].
  intros zd Hfind. vm_compute in Hfind. injection Hfind as <-.
  split; [reflexivity|]. apply not_elem_of_nil.
Qed.

(** ** Remove *)

(** No-op on a name the index does not hold. *)
Lemma Remove_absent_name `{NameSyntax} (z : Zone) (r : RR) :
  Find z (Name (Header r)) = None -> Remove z r = Some (z, None).
Proof. unfold Find, Remove. by intros ->. Qed.

(** The loop passes over cells that differ from [r] without a change. *)
Lemma scan_skip (r : RR) (a b i : nat) (arr : list RR) (len : nat) (rm : bool) :
  (forall j zr, (i <= j < i + a)%nat -> arr !! j = Some zr -> r <> zr) ->
  (i + a <= length arr)%nat ->
  scan r (a + b) i arr len rm = scan r b (i + a) arr len rm.
Proof.
  revert i. induction a as [|a IH]; intros i Hdiff Hlen.
  - by rewrite Nat.add_0_r.
  - simpl. destruct (lookup_lt_is_Some_2 arr i) as [zr Hzr]; [lia|].
    rewrite Hzr. destruct (decide (r = zr)) as [Heq|_].
    + exfalso. eapply (Hdiff i zr); [lia|exact Hzr|exact Heq].
    + rewrite IH; [f_equal; lia| |lia].
      intros j zr' Hj. apply Hdiff. lia.
Qed.

(** A list that does not hold [r] comes back as it is. *)
Lemma remove_loop_absent (r : RR) (l : list RR) :
  r ∉ l -> remove_loop r l = Some (l, false).
Proof.
  intros Hnot. unfold remove_loop.
  rewrite <- (Nat.add_0_r (length l)) at 1.
  rewrite scan_skip; [simpl; by rewrite take_ge| |lia].
  intros j zr _ Hzr ->. apply Hnot. by eapply list_elem_of_lookup_2.
Qed.

(** The cut at the one cell that holds [r]: the cells behind it move down
    and the last cell keeps its old content. *)
Lemma cut_middle (r : RR) (l1 l2 : list RR) :
  cut (length l1) (l1 ++ r :: l2) (length (l1 ++ r :: l2))
  = Some (l1 ++ l2 ++ drop (length l2) (r :: l2), (length l1 + length l2)%nat).
Proof.
  assert (length (l1 ++ r :: l2) = length l1 + S (length l2))%nat as Hlen
    by (rewrite length_app; reflexivity).
  unfold cut. rewrite Hlen.
  rewrite decide_True by lia.
  rewrite take_app_length.
  rewrite !(drop_app_ge l1) by lia.
  replace (length l1 + 1 - length l1)%nat with 1%nat by lia.
  replace (length l1 + S (length l2) - 1 - length l1)%nat with (length l2) by lia.
  change (drop 1 (r :: l2)) with l2.
  rewrite take_ge by lia.
  do 2 f_equal. lia.
Qed.

(** Behind the first of them, the moved cells and the stale last cell hold
    members of [l2] only. *)
Lemma moved_cells (r : RR) (l2 : list RR) (j : nat) (zr : RR) :
  (1 <= j)%nat ->
  (l2 ++ drop (length l2) (r :: l2)) !! j = Some zr ->
  zr ∈ l2.
Proof.
  intros Hj Hzr. destruct l2 as [|x l2].
  - destruct j; [lia|]. discriminate Hzr.
  - apply list_elem_of_lookup_2 in Hzr. apply elem_of_app in Hzr as [Hin|Hin]; [exact Hin|].
    simpl in Hin. apply list_elem_of_lookup in Hin as [k Hk].
    rewrite lookup_drop in Hk. by eapply list_elem_of_lookup_2.
Qed.

(** A record that the list holds once is taken out, and the records around
    it keep their order. *)
Lemma remove_loop_once (r : RR) (l1 l2 : list RR) :
  r ∉ l1 -> r ∉ l2 ->
  remove_loop r (l1 ++ r :: l2) = Some (l1 ++ l2, true).
Proof.
  intros Hl1 Hl2. unfold remove_loop.
  assert (length (l1 ++ r :: l2) = length l1 + S (length l2))%nat as Hlen
    by (rewrite length_app; reflexivity).
  rewrite Hlen at 1.
  rewrite scan_skip; [| |lia].
  2:{ intros j zr Hj Hzr ->. apply Hl1.
      rewrite lookup_app_l in Hzr by lia. by eapply list_elem_of_lookup_2. }
  simpl. rewrite list_lookup_middle by reflexivity.
  rewrite decide_True by reflexivity.
  rewrite cut_middle.
  rewrite <- (Nat.add_0_r (length l2)) at 1.
  rewrite scan_skip.
  - simpl. rewrite app_assoc, take_app_length'; [reflexivity|].
    rewrite length_app. lia.
  - intros j zr Hj Hzr <-. apply Hl2.
    rewrite lookup_app_r in Hzr by lia.
    eapply (moved_cells r l2 (j - length l1)); [lia|exact Hzr].
  - rewrite !length_app, length_drop. simpl. lia.
Qed.

(** [Remove] of a record that is no signature and that its list holds once:
    the call returns without error and the list is left without it. *)
Lemma Remove_stored_once `{NameSyntax} (z : Zone) (r : RR) (l1 l2 : list RR) :
  Rrtype (Header r) <> TypeRRSIG ->
  is_Some (Find z (Name (Header r))) ->
  stored z (Name (Header r)) (Rrtype (Header r)) = l1 ++ r :: l2 ->
  r ∉ l1 -> r ∉ l2 ->
  exists z',
    Remove z r = Some (z', None)
    /\ stored z' (Name (Header r)) (Rrtype (Header r)) = l1 ++ l2.
Proof.
  intros Ht [zd Hzd] Hstored Hl1 Hl2. unfold stored in Hstored. rewrite Hzd in Hstored.
  unfold Remove. unfold Find in Hzd. rewrite Hzd.
  destruct (Z.eqb_spec (Rrtype (Header r)) TypeRRSIG) as [?|_]; [done|].
  rewrite Hstored, remove_loop_once by done. simpl.
  eexists. split; [reflexivity|].
  unfold stored, Find. simpl.
  rewrite lookup_insert_eq. simpl. by rewrite lookup_total_insert_eq.
Qed.

(** C3, at inputs where the code misses it.  With the same record stored
    twice in front of another one, [Remove] takes one copy away and keeps the
    other; with the record stored twice and nothing behind, the second
    [s[i+1:]] is out of range and [Remove] panics; and a signature record,
    which [Insert] files in [Signatures], is looked for in the plain list and
    stays where it is. *)
Theorem Remove_misses_duplicates_and_signatures :
  (fun z => @stored spec_syntax z "www.example." TypeA)
    <$> @run spec_syntax zone_example
          [OpInsert rr_a; OpInsert rr_a; OpInsert rr_b; OpRemove rr_a]
  = Some [rr_a; rr_b]
  /\ @run spec_syntax zone_example [OpInsert rr_a; OpInsert rr_a; OpRemove rr_a] = None
  /\ (fun z => @stored_signatures spec_syntax z "www.example." TypeA)
       <$> @run spec_syntax zone_example [OpInsert rr_sig; OpRemove rr_sig]
     = Some [mkRRSIG 3 (mkHeader "www.example." TypeRRSIG) TypeA].
Proof. repeat split; vm_compute; reflexivity. Qed.

(** ** The wildcard counter *)

Lemma int_wrap_small (x : Z) : - 2 ^ 63 <= x < 2 ^ 63 -> int_wrap x = x.
Proof.
  intros Hx. unfold int_wrap.
  change (2 ^ 64) with (2 ^ 63 + 2 ^ 63).
  rewrite Z.mod_small; lia.
Qed.

Lemma file_rr_Name (origin : string) (r : RR) (zd zd' : ZoneData) :
  file_rr origin r zd = Some zd' -> zd_Name zd' = zd_Name zd.
Proof.
  unfold file_rr. destruct (Z.eqb _ _); [destruct (as_RRSIG r)|];
    intros Hf; inversion Hf; reflexivity.
Qed.

Section WildcardCount.
Implicit Types m : gmap string ZoneData.

Lemma wildcard_count_le_size m : (size (filter wildcard_entry m) <= size m)%nat.
Proof. apply map_subseteq_size, map_filter_subseteq. Qed.

Lemma wildcard_count_insert_new m k zd :
  m !! k = None ->
  size (filter wildcard_entry (<[k := zd]> m))
  = if is_wildcard (zd_Name zd) then S (size (filter wildcard_entry m))
    else size (filter wildcard_entry m).
Proof.
  intros Hk. rewrite map_filter_insert.
  destruct (decide (wildcard_entry (k, zd))) as [Hw|Hw]; unfold wildcard_entry in Hw;
    simpl in Hw.
  - rewrite Hw. apply map_size_insert_None, map_lookup_filter_None_2. by left.
  - destruct (is_wildcard (zd_Name zd)); [done|]. by rewrite delete_id.
Qed.

Lemma wildcard_count_insert_same m k zd0 zd :
  m !! k = Some zd0 ->
  zd_Name zd = zd_Name zd0 ->
  size (filter wildcard_entry (<[k := zd]> m)) = size (filter wildcard_entry m).
Proof.
  intros Hk Hname. rewrite map_filter_insert.
  destruct (decide (wildcard_entry (k, zd))) as [Hw|Hw]; unfold wildcard_entry in Hw;
    simpl in Hw.
  - apply map_size_insert_Some. exists zd0.
    apply map_lookup_filter_Some_2; [done|].
    unfold wildcard_entry. simpl. by rewrite <- Hname.
  - rewrite map_filter_delete. apply map_size_delete_None, map_lookup_filter_None_2.
    right. intros x Hx. rewrite Hk in Hx. injection Hx as <-.
    unfold wildcard_entry. simpl. by rewrite <- Hname.
Qed.
End WildcardCount.

(** What one [Insert] does to the index size, to the number of wildcard
    names and to the counter: [grew] tells whether a new wildcard name came
    in. *)
Lemma Insert_counts `{NameSyntax} (z z' : Zone) (r : RR) (e : option Error) :
  Insert z r = Some (z', e) ->
  (size (Radix z) <= size (Radix z'))%nat
  /\ exists grew : bool,
       wildcard_names z' = (if grew then S (wildcard_names z) else wildcard_names z)
       /\ Wildcard z' = (if grew then int_wrap (Wildcard z + 1) else Wildcard z).
Proof.
  unfold Insert. destruct (IsSubDomain _ _); simpl.
  2:{ intros Hi. injection Hi as <- <-. split; [lia|]. by exists false. }
  destruct (Radix z !! toRadixName (Name (Header r))) as [found|] eqn:Hk.
  - destruct (file_rr (Origin z) r found) as [zd|] eqn:Hf; [|discriminate].
    intros Hi. injection Hi as <- <-. simpl. split.
    + rewrite map_size_insert_Some; [lia|eauto].
    + exists false. split; [|reflexivity]. unfold wildcard_names. simpl.
      eapply wildcard_count_insert_same; [exact Hk|]. by eapply file_rr_Name.
  - destruct (file_rr (Origin z) r (newZoneData (Name (Header r)))) as [zd|] eqn:Hf;
      [|discriminate].
    intros Hi. injection Hi as <- <-. simpl. split.
    + rewrite map_size_insert_None by done. lia.
    + exists (is_wildcard (Name (Header r))). unfold wildcard_names. simpl.
      rewrite wildcard_count_insert_new by done.
      apply file_rr_Name in Hf. simpl in Hf. rewrite Hf.
      by destruct (is_wildcard (Name (Header r))).
Qed.

(** What one [Remove] does to them: the index keeps its names, and the
    counter stays or, at a wildcard name, goes one down and not below 0. *)
Lemma Remove_counts `{NameSyntax} (z z' : Zone) (r : RR) (e : option Error) :
  Remove z r = Some (z', e) ->
  size (Radix z') = size (Radix z)
  /\ wildcard_names z' = wildcard_names z
  /\ (Wildcard z' = Wildcard z
      \/ is_wildcard (Name (Header r)) = true
         /\ Wildcard z' = Z.max 0 (int_wrap (Wildcard z - 1))).
Proof.
  unfold Remove.
  destruct (Radix z !! toRadixName (Name (Header r))) as [zd|] eqn:Hk.
  2:{ intros Hi. injection Hi as <- <-. auto. }
  destruct (if Z.eqb _ _ then _ else _) as [k|]; [|discriminate].
  destruct (remove_loop r (zd_RR zd !!! k)) as [[l remove]|]; [|discriminate].
  intros Hi. injection Hi as <- <-. simpl.
  destruct remove; simpl.
  - split; [by rewrite map_size_insert_Some by eauto|].
    split; [unfold wildcard_names; simpl;
            by eapply wildcard_count_insert_same; [exact Hk|]|].
    destruct (is_wildcard (Name (Header r))); [right|by left].
    split; [reflexivity|].
    destruct (Z.ltb_spec (int_wrap (Wildcard z - 1)) 0); lia.
  - auto.
Qed.

Lemma call_counts `{NameSyntax} (z z' : Zone) (op : Op) (e : option Error) :
  call z op = Some (z', e) ->
  (size (Radix z) <= size (Radix z'))%nat
  /\ (Z.of_nat (size (Radix z')) < 2 ^ 63 ->
      0 <= Wildcard z <= Z.of_nat (wildcard_names z) ->
      0 <= Wildcard z' <= Z.of_nat (wildcard_names z'))
  /\ (Z.of_nat (size (Radix z')) < 2 ^ 63 ->
      removes_at_wildcard op = false ->
      Wildcard z = Z.of_nat (wildcard_names z) ->
      Wildcard z' = Z.of_nat (wildcard_names z')).
Proof.
  pose proof (wildcard_count_le_size (Radix z)) as Hle.
  pose proof (wildcard_count_le_size (Radix z')) as Hle'.
  fold (wildcard_names z) in Hle. fold (wildcard_names z') in Hle'.
  destruct op as [r|r]; simpl; intros Hcall.
  - apply Insert_counts in Hcall as (Hsize & grew & Hnames & Hw).
    split; [exact Hsize|].
    destruct grew.
    + split; [intros Hbound Hinv | intros Hbound _ Hinv];
        rewrite Hw, int_wrap_small; lia.
    + split; [intros Hbound Hinv | intros Hbound _ Hinv]; lia.
  - apply Remove_counts in Hcall as (Hsize & Hnames & Hw).
    split; [lia|]. split.
    + intros Hbound Hinv. destruct Hw as [Hw|[_ Hw]]; [lia|].
      rewrite Hw, int_wrap_small; lia.
    + intros Hbound Hop Hinv. destruct Hw as [Hw|[Hwild _]]; [lia|congruence].
Qed.

Lemma run_size `{NameSyntax} (ops : list Op) (z z' : Zone) :
  run z ops = Some z' -> (size (Radix z) <= size (Radix z'))%nat.
Proof.
  revert z. induction ops as [|op ops IH]; intros z; simpl.
  - intros Hr. injection Hr as <-. lia.
  - destruct (call z op) as [[z1 e]|] eqn:Hcall; [|discriminate].
    intros Hr. apply IH in Hr. apply call_counts in Hcall as [Hsize _]. lia.
Qed.

Lemma run_counts `{NameSyntax} (ops : list Op) (z z' : Zone) :
  run z ops = Some z' ->
  Z.of_nat (size (Radix z')) < 2 ^ 63 ->
  (0 <= Wildcard z <= Z.of_nat (wildcard_names z) ->
   0 <= Wildcard z' <= Z.of_nat (wildcard_names z'))
  /\ (forallb (fun op => negb (removes_at_wildcard op)) ops = true ->
      Wildcard z = Z.of_nat (wildcard_names z) ->
      Wildcard z' = Z.of_nat (wildcard_names z')).
Proof.
  revert z. induction ops as [|op ops IH]; intros z; simpl.
  - intros Hr _. injection Hr as <-. auto.
  - destruct (call z op) as [[z1 e]|] eqn:Hcall; [|discriminate].
    intros Hr Hbound.
    pose proof (run_size _ _ _ Hr) as Hmono.
    destruct (IH z1 Hr Hbound) as [IHle IHeq].
    apply call_counts in Hcall as (_ & Hle & Heq).
    split.
    + intros Hinv. apply IHle, Hle; [lia|exact Hinv].
    + intros Hops Hinv. apply andb_prop in Hops as [Hop Hops].
      apply negb_true_iff in Hop.
      apply IHeq; [exact Hops|]. apply Heq; [lia|exact Hop|exact Hinv].
Qed.

Lemma NewZone_fresh `{NameSyntax} (origin : string) (z : Zone) :
  NewZone origin = Some z -> Wildcard z = 0 /\ Radix z = ∅.
Proof.
  unfold NewZone. destruct (IsDomainName _); [|discriminate].
  intros Hz. injection Hz as <-. auto.
Qed.

(** C4, as amended: after any calls of [Insert] and [Remove] on a new zone
    that leave fewer than 2^63 names in the index, the counter [Wildcard] is
    not negative and not above the number of names in the index that begin
    with ["*."]; it is that number when no [Remove] was called for a record
    at such a name. *)
Theorem Wildcard_counter_bounds `{NameSyntax}
  (origin : string) (z0 z : Zone) (ops : list Op) :
  NewZone origin = Some z0 ->
  run z0 ops = Some z ->
  Z.of_nat (size (Radix z)) < 2 ^ 63 ->
  0 <= Wildcard z <= Z.of_nat (wildcard_names z)
  /\ (forallb (fun op => negb (removes_at_wildcard op)) ops = true ->
      Wildcard z = Z.of_nat (wildcard_names z)).
Proof.
  intros Hnew Hrun Hbound.
  apply NewZone_fresh in Hnew as [Hw Hradix].
  assert (wildcard_names z0 = 0%nat) as Hnames.
  { unfold wildcard_names. rewrite Hradix, map_filter_empty. apply map_size_empty. }
  destruct (run_counts ops z0 z Hrun Hbound) as [Hle Heq].
  split.
  - apply Hle. lia.
  - intros Hops. apply Heq; [exact Hops|lia].
Qed.

Lemma Wildcard_counter_bounds_witness :
  exists z,
    @run spec_syntax zone_example [OpInsert rr_w1; OpInsert rr_w2; OpRemove rr_w1] = Some z
    /\ 0 <= Wildcard z <= Z.of_nat (wildcard_names z).
Proof.
  eexists. split; [vm_compute; reflexivity|].
  eapply (@Wildcard_counter_bounds spec_syntax "example." zone_example _
            [OpInsert rr_w1; OpInsert rr_w2; OpRemove rr_w1]);
    vm_compute; reflexivity.
Defined.

(** C4, where it fails: two records are put at ["*.example."] and one of
    them is taken away again; the name is still in the index and still holds
    the other record, and the counter is back at 0. *)
Lemma Wildcard_counter_undercounts :
  @NewZone spec_syntax "example." = Some zone_example
  /\ exists z,
       @run spec_syntax zone_example [OpInsert rr_w1; OpInsert rr_w2; OpRemove rr_w1]
       = Some z
       /\ Wildcard z = 0
       /\ wildcard_names z = 1%nat
       /\ @stored spec_syntax z "*.example." TypeA = [rr_w2].
Proof.
  split; [reflexivity|].
  eexists. split; [vm_compute; reflexivity|].
  repeat split; vm_compute; reflexivity.
Qed.

(** ** The removal loop as a function of the list *)

Lemma drop_last_cell (x z : RR) (R T : list RR) :
  last (x :: R) = Some z -> drop (length R) (x :: R ++ T) = z :: T.
Proof.
  revert x. induction R as [|y R IH]; intros x Hlast.
  - simpl in *. by injection Hlast as ->.
  - rewrite last_cons_cons in Hlast. simpl. by apply IH.
Qed.

(** One round of the loop on a cell that differs from [r]. *)
Lemma scan_step_skip (r x : RR) (todo : nat) (P Q : list RR) (len : nat) (rm : bool) :
  r <> x ->
  scan r (S todo) (length P) (P ++ x :: Q) len rm
  = scan r todo (length (P ++ [x])) ((P ++ [x]) ++ Q) len rm.
Proof.
  intros Hne. simpl. rewrite list_lookup_middle by reflexivity.
  rewrite decide_False by exact Hne.
  rewrite length_app, <- app_assoc. simpl. f_equal. lia.
Qed.

(** One round of the loop on a cell of the slice that holds [r]. *)
Lemma scan_step_cut (r z : RR) (todo : nat) (P R T : list RR) (rm : bool) :
  last (r :: R) = Some z ->
  scan r (S todo) (length P) (P ++ r :: R ++ T) (length P + S (length R)) rm
  = scan r todo (S (length P)) (P ++ R ++ z :: T) (length P + length R) true.
Proof.
  intros Hlast. simpl. rewrite list_lookup_middle by reflexivity.
  rewrite decide_True by reflexivity.
  unfold cut. rewrite decide_True by lia.
  rewrite take_app_length.
  rewrite !(drop_app_ge P) by lia.
  replace (length P + 1 - length P)%nat with 1%nat by lia.
  replace (length P + S (length R) - 1 - length P)%nat with (length R) by lia.
  change (drop 1 (r :: R ++ T)) with (R ++ T).
  replace (length P + S (length R) - (length P + 1))%nat with (length R) by lia.
  rewrite take_app_length.
  rewrite (drop_last_cell r z R T Hlast).
  do 3 f_equal. lia.
Qed.

Lemma list_ind2 {A} (Q : list A -> Prop) :
  Q [] -> (forall x, Q [x]) -> (forall x y l, Q l -> Q (y :: l) -> Q (x :: y :: l)) ->
  forall l, Q l.
Proof.
  intros H0 H1 H2 l.
  assert (Q l /\ forall x, Q (x :: l)) as [Hl _]; [|exact Hl].
  induction l as [|y l [IHl IHy]]; split; auto.
Qed.

(** The loop on the cells behind the slice, which all hold [z]. *)
Lemma scan_behind_slice (r z : RR) (P T : list RR) (len : nat) :
  T <> [] -> Forall (eq z) T -> (len <= length P)%nat ->
  scan r (length T) (length P) (P ++ T) len true
  = if decide (r = z) then None else Some (P ++ T, len, true).
Proof.
  intros HT Hz Hlen. destruct (decide (r = z)) as [->|Hne].
  - destruct T as [|t T]; [done|]. apply Forall_cons in Hz as [<- _].
    simpl. rewrite list_lookup_middle by reflexivity.
    rewrite decide_True by reflexivity.
    unfold cut. by rewrite decide_False by lia.
  - rewrite <- (Nat.add_0_r (length T)) at 1.
    rewrite scan_skip; [reflexivity| |rewrite length_app; lia].
    intros j zr Hj Hzr <-.
    rewrite lookup_app_r in Hzr by lia.
    apply list_elem_of_lookup_2 in Hzr.
    rewrite Forall_forall in Hz. apply Hne. symmetry. by apply Hz.
Qed.

(** The loop behind a cut follows [after_cut].  [P] holds the cells the loop
    has passed, [R] the cells of the slice still to read, [T] the cells
    behind the slice. *)
Lemma scan_after_cut (r z : RR) (n : nat) :
  forall R P T : list RR,
    (length R <= n)%nat ->
    T <> [] -> Forall (eq z) T -> (R <> [] -> last R = Some z) ->
    match after_cut r z R with
    | None =>
        scan r (length R + length T) (length P) (P ++ R ++ T) (length P + length R) true
        = None
    | Some R' =>
        exists T',
          scan r (length R + length T) (length P) (P ++ R ++ T) (length P + length R) true
          = Some (P ++ R' ++ T', (length P + length R')%nat, true)
    end.
Proof.
  induction n as [|n IH]; intros R P T Hn HT Hz Hlast.
  - destruct R as [|x R]; [|simpl in Hn; lia].
    simpl after_cut. simpl length. rewrite Nat.add_0_r, Nat.add_0_l. simpl app.
    rewrite (scan_behind_slice r z) by done.
    destruct (decide (r = z)); [reflexivity|]. exists T. by rewrite Nat.add_0_r.
  - destruct R as [|x R].
    { apply (IH [] P T); [simpl; lia|done..]. }
    specialize (Hlast ltac:(done)).
    simpl after_cut. destruct (decide (r = x)) as [<-|Hne].
    + (* the cell holds r: it is cut out *)
      change (length (r :: R) + length T)%nat with (S (length R + length T)).
      change (length (r :: R)) with (S (length R)).
      change (P ++ (r :: R) ++ T) with (P ++ r :: R ++ T).
      rewrite (scan_step_cut r z _ P R T true Hlast).
      destruct R as [|y R].
      * (* nothing behind it in the slice: the next cell read holds r again *)
        simpl in Hlast. injection Hlast as <-.
        simpl length. rewrite Nat.add_0_r, Nat.add_0_l. simpl app.
        change (P ++ r :: T) with (P ++ [r] ++ T). rewrite app_assoc.
        replace (S (length P)) with (length (P ++ [r])) by (rewrite length_app; simpl; lia).
        rewrite (scan_behind_slice r r) by (try done; rewrite length_app; lia).
        by rewrite decide_True.
      * (* the record behind it moves into the cell just read *)
        rewrite last_cons_cons in Hlast.
        specialize (IH R (P ++ [y]) (z :: T)).
        destruct (after_cut r z R) as [R'|]; simpl fmap.
        -- destruct IH as [T' IH]; [simpl in Hn; lia|done|by constructor| |].
           { intros HR. destruct R; [done|]. by rewrite last_cons_cons in Hlast. }
           exists T'. rewrite length_app in IH. rewrite <- !app_assoc in IH.
           transitivity (Some (P ++ [y] ++ R' ++ T', (length P + length [y] + length R')%nat, true));
             [|by replace (length P + length [y] + length R')%nat
                   with (length P + length (y :: R'))%nat by (simpl; lia)].
           rewrite <- IH. simpl length. simpl app. f_equal; lia.
        -- rewrite length_app in IH. rewrite <- !app_assoc in IH.
           rewrite <- IH; [|simpl in Hn; lia|done|by constructor|].
           { simpl length. simpl app. f_equal; lia. }
           intros HR. destruct R; [done|]. by rewrite last_cons_cons in Hlast.
    + (* the cell holds another record: the loop moves on *)
      change (length (x :: R) + length T)%nat with (S (length R + length T)).
      change (P ++ (x :: R) ++ T) with (P ++ x :: R ++ T).
      rewrite scan_step_skip by done.
      specialize (IH R (P ++ [x]) T).
      destruct (after_cut r z R) as [R'|]; simpl fmap.
      * destruct IH as [T' IH]; [simpl in Hn; lia|done|done| |].
        { intros HR. destruct R; [done|]. by rewrite last_cons_cons in Hlast. }
        exists T'.
        transitivity (Some ((P ++ [x]) ++ R' ++ T', (length (P ++ [x]) + length R')%nat, true));
          [|rewrite length_app, <- !app_assoc;
            by replace (length P + length [x] + length R')%nat
                 with (length P + length (x :: R'))%nat by (simpl; lia)].
        rewrite <- IH. f_equal. rewrite length_app. simpl. lia.
      * rewrite <- IH; [|simpl in Hn; lia|done|done|].
        { f_equal. rewrite length_app. simpl. lia. }
        intros HR. destruct R; [done|]. by rewrite last_cons_cons in Hlast.
Qed.

Lemma last_default (y : RR) (l : list RR) : last (y :: l) = Some (default y (last l)).
Proof. rewrite last_cons. by destruct (last l). Qed.

(** The loop from its start follows [loop_spec]. *)
Lemma scan_loop_spec (r : RR) (l : list RR) :
  forall P : list RR,
    match loop_spec r l with
    | None =>
        scan r (length l) (length P) (P ++ l) (length P + length l) false = None
    | Some (l1, rm) =>
        exists T',
          scan r (length l) (length P) (P ++ l) (length P + length l) false
          = Some (P ++ l1 ++ T', (length P + length l1)%nat, rm)
    end.
Proof.
  induction l as [|x l IH]; intros P.
  - simpl. by exists [].
  - simpl loop_spec. destruct (decide (r = x)) as [<-|Hne].
    + destruct l as [|y l].
      * exists [r].
        etrans; [exact (scan_step_cut r r 0 P [] [] false eq_refl)|]. simpl.
        by rewrite Nat.add_0_r.
      * pose proof (last_default y l) as Hlast.
        assert (scan r (length (r :: y :: l)) (length P) (P ++ r :: y :: l)
                  (length P + length (r :: y :: l)) false
                = scan r (length (y :: l)) (S (length P))
                    (P ++ (y :: l) ++ [default y (last l)]) (length P + length (y :: l)) true)
          as ->.
        { rewrite <- (scan_step_cut r (default y (last l)) _ P (y :: l) [] false)
            by (by rewrite last_cons_cons).
          by rewrite app_nil_r. }
        pose proof (scan_after_cut r (default y (last l)) (length l) l (P ++ [y])
                      [default y (last l)]) as Hcut.
        destruct (after_cut r (default y (last l)) l) as [R'|].
        -- destruct Hcut as [T' Hcut]; [lia|done|by repeat constructor| |].
           { intros Hl. destruct (last l) eqn:Hl'; [done|]. by apply last_None in Hl'. }
           exists T'.
           transitivity (Some ((P ++ [y]) ++ R' ++ T', (length (P ++ [y]) + length R')%nat, true));
             [|rewrite length_app, <- !app_assoc;
               by replace (length P + length [y] + length R')%nat
                    with (length P + length (y :: R'))%nat by (simpl; lia)].
           rewrite <- Hcut. rewrite length_app, <- !app_assoc. simpl length. simpl app.
           f_equal; lia.
        -- rewrite <- Hcut; [|lia|done|by repeat constructor|].
           { rewrite length_app, <- !app_assoc. simpl length. simpl app. f_equal; lia. }
           intros Hl. destruct (last l) eqn:Hl'; [done|]. by apply last_None in Hl'.
    + change (length (x :: l)) with (S (length l)).
      rewrite scan_step_skip by done.
      specialize (IH (P ++ [x])).
      destruct (loop_spec r l) as [[l1 rm]|].
      * destruct IH as [T' IH]. exists T'.
        transitivity (Some ((P ++ [x]) ++ l1 ++ T', (length (P ++ [x]) + length l1)%nat, rm));
          [|rewrite length_app, <- !app_assoc;
            by replace (length P + length [x] + length l1)%nat
                 with (length P + length (x :: l1))%nat by (simpl; lia)].
        rewrite <- IH. f_equal. rewrite length_app. simpl. lia.
      * rewrite <- IH. f_equal. rewrite length_app. simpl. lia.
Qed.

Lemma remove_loop_spec (r : RR) (l : list RR) : remove_loop r l = loop_spec r l.
Proof.
  unfold remove_loop. pose proof (scan_loop_spec r l []) as Hs. simpl in Hs.
  destruct (loop_spec r l) as [[l1 rm]|].
  - destruct Hs as [T' ->]. by rewrite take_app_length.
  - by rewrite Hs.
Qed.

Lemma last_tail (x z : RR) (l : list RR) :
  last (x :: l) = Some z -> l <> [] -> last l = Some z.
Proof. intros Hlast Hl. destruct l; [done|]. by rewrite last_cons_cons in Hlast. Qed.

(** Behind a cut the loop goes out of range exactly when the last record of
    the list is [r]. *)
Lemma after_cut_None (r z : RR) (R : list RR) :
  (R <> [] -> last R = Some z) -> after_cut r z R = None <-> r = z.
Proof.
  induction R as [|x|x y R IH IHy] using list_ind2; intros Hlast.
  - simpl. destruct (decide (r = z)); split; done.
  - specialize (Hlast ltac:(done)). simpl in Hlast. injection Hlast as ->.
    simpl. destruct (decide (r = z)); simpl; split; done.
  - specialize (Hlast ltac:(done)). rewrite last_cons_cons in Hlast.
    simpl after_cut. destruct (decide (r = x)).
    + rewrite fmap_None. apply IH. by apply (last_tail y).
    + rewrite fmap_None. apply IHy. done.
Qed.

(** What it leaves is the list without some copies of [r], in the old
    order. *)
Lemma after_cut_Some (r z : RR) (R : list RR) :
  forall R', after_cut r z R = Some R' ->
    R' `sublist_of` R /\ filter (fun x => r <> x) R' = filter (fun x => r <> x) R.
Proof.
  induction R as [|x|x y R IH IHy] using list_ind2; intros R' Hcut.
  - simpl in Hcut. destruct (decide (r = z)); [done|]. by injection Hcut as <-.
  - simpl in Hcut. destruct (decide (r = x)); [done|].
    destruct (decide (r = z)); [done|]. simpl in Hcut. by injection Hcut as <-.
  - simpl after_cut in Hcut. destruct (decide (r = x)) as [<-|Hne].
    + apply fmap_Some in Hcut as (R1 & Hcut & ->).
      apply IH in Hcut as [Hsub Hfil]. split.
      * by apply sublist_cons, sublist_skip.
      * rewrite (filter_cons_False _ r) by (intros Hr; by apply Hr).
        rewrite !(filter_cons _ y). by rewrite Hfil.
    + apply fmap_Some in Hcut as (R1 & Hcut & ->).
      apply IHy in Hcut as [Hsub Hfil]. split.
      * by apply sublist_skip.
      * rewrite !(filter_cons _ x). by rewrite Hfil.
Qed.

Lemma loop_spec_Some (r : RR) (l : list RR) :
  forall l' rm, loop_spec r l = Some (l', rm) ->
    rm = bool_decide (r ∈ l)
    /\ l' `sublist_of` l
    /\ filter (fun x => r <> x) l' = filter (fun x => r <> x) l
    /\ (r ∈ l -> (length l' < length l)%nat).
Proof.
  induction l as [|x l IH]; intros l' rm Hl.
  - injection Hl as <- <-. repeat split; [done|]. by intros ?%elem_of_nil.
  - simpl in Hl. destruct (decide (r = x)) as [<-|Hne].
    + rewrite bool_decide_eq_true_2 by (by left).
      destruct l as [|y l].
      * injection Hl as <- <-. repeat split.
        -- by apply sublist_cons.
        -- by rewrite filter_cons_False by (intros Hr; by apply Hr).
        -- simpl. lia.
      * destruct (after_cut r (default y (last l)) l) as [R|] eqn:Hcut; [|done].
        injection Hl as <- <-. apply after_cut_Some in Hcut as [Hsub Hfil].
        repeat split.
        -- by apply sublist_cons, sublist_skip.
        -- rewrite (filter_cons_False _ r) by (intros Hr; by apply Hr).
           rewrite !(filter_cons _ y). by rewrite Hfil.
        -- intros _. apply sublist_length in Hsub. simpl. lia.
    + destruct (loop_spec r l) as [[l1 rm1]|] eqn:Hl1; [|done].
      injection Hl as <- <-. destruct (IH l1 rm1 eq_refl) as (Hrm & Hsub & Hfil & Hlen).
      repeat split.
      * rewrite Hrm. apply bool_decide_ext. rewrite elem_of_cons.
        split; [by right|]. by intros [?|?].
      * by apply sublist_skip.
      * rewrite !(filter_cons _ x). by rewrite Hfil.
      * intros [?|Hin]%elem_of_cons; [done|]. apply Hlen in Hin. simpl. lia.
Qed.

Lemma loop_spec_None (r : RR) (l : list RR) :
  loop_spec r l = None <-> exists l1 l2, l = l1 ++ r :: l2 ++ [r].
Proof.
  induction l as [|x l IH].
  - split; [done|]. intros (l1 & l2 & Hl). by destruct l1.
  - simpl loop_spec. destruct (decide (r = x)) as [<-|Hne].
    + destruct l as [|y l].
      * split; [done|]. intros (l1 & l2 & Hl).
        destruct l1 as [|? l1]; simplify_eq/=; [by destruct l2|by destruct l1].
      * assert (after_cut r (default y (last l)) l = None <-> r = default y (last l))
          as Hnone.
        { apply after_cut_None. intros Hne.
          destruct (last l) eqn:Hl'; [done|]. by apply last_None in Hl'. }
        destruct (after_cut r (default y (last l)) l) as [R|].
        -- split; [done|]. intros (l1 & l2 & Hl).
           assert (last (y :: l) = Some r) as Hlast.
           { rewrite <- (last_cons_cons r), Hl.
             replace (l1 ++ r :: l2 ++ [r]) with ((l1 ++ r :: l2) ++ [r])
               by (by rewrite <- app_assoc).
             apply last_snoc. }
           rewrite last_default in Hlast. injection Hlast as Hlast.
           symmetry in Hlast. by apply Hnone in Hlast.
        -- split; [|done]. intros _.
           assert (r = default y (last l)) as Hz by (by apply Hnone).
           pose proof (last_default y l) as Hlast. rewrite <- Hz in Hlast.
           apply last_Some in Hlast as [l2 Hl2]. exists [], l2. simpl. by rewrite Hl2.
    + split.
      * destruct (loop_spec r l) as [[l1 rm]|]; [done|]. intros _.
        destruct (proj1 IH eq_refl) as (l1 & l2 & ->). by exists (x :: l1), l2.
      * intros (l1 & l2 & Hl). destruct l1 as [|? l1]; simplify_eq/=.
        rewrite (proj2 IH); [done|]. by exists l1, l2.
Qed.

(** ** Remove, call by call *)

(** [Remove] on a name of the index, written with the loop as a function. *)
Lemma Remove_found `{NameSyntax} (z : Zone) (r : RR) (zd : ZoneData) :
  Find z (Name (Header r)) = Some zd ->
  Remove z r
  = match scanned_type r with
    | None => None
    | Some k =>
        match loop_spec r (zd_RR zd !!! k) with
        | None => None
        | Some (l, remove) =>
            Some (mkZone (Origin z)
                    (if remove && is_wildcard (Name (Header r))
                     then (let w := int_wrap (Wildcard z - 1) in if w <? 0 then 0 else w)
                     else Wildcard z)
                    (if remove
                     then <[toRadixName (Name (Header r)) :=
                              mkZoneData (zd_Name zd) (<[k := l]> (zd_RR zd))
                                (Signatures zd) (NonAuth zd)]> (Radix z)
                     else Radix z),
                  None)
        end
    end.
Proof.
  intros Hzd. unfold Find in Hzd. unfold Remove, scanned_type. rewrite Hzd.
  destruct (if Z.eqb _ _ then _ else _) as [k|]; [|reflexivity].
  rewrite remove_loop_spec. by destruct (loop_spec r (zd_RR zd !!! k)) as [[l rm]|].
Qed.

Lemma scanned_list_found `{NameSyntax} (z : Zone) (r : RR) (zd : ZoneData) (k : Z) :
  Find z (Name (Header r)) = Some zd -> scanned_type r = Some k ->
  scanned_list z r = zd_RR zd !!! k.
Proof. intros Hzd Hk. unfold scanned_list, stored. by rewrite Hk, Hzd. Qed.

Lemma Zone_eta (z : Zone) : mkZone (Origin z) (Wildcard z) (Radix z) = z.
Proof. by destruct z. Qed.

(** X13: [Remove] panics in two cases only, both at a name the index holds: the
    record claims the signature type without being a signature record, or
    the scanned list ends with the record and holds it at an earlier place
    too. *)
Theorem Remove_panics_iff `{NameSyntax} (z : Zone) (r : RR) :
  Remove z r = None
  <-> is_Some (Find z (Name (Header r)))
      /\ (scanned_type r = None
          \/ exists l1 l2, scanned_list z r = l1 ++ r :: l2 ++ [r]).
Proof.
  destruct (Find z (Name (Header r))) as [zd|] eqn:Hzd.
  - rewrite (Remove_found z r zd Hzd).
    destruct (scanned_type r) as [k|] eqn:Hk.
    + rewrite (scanned_list_found z r zd k Hzd Hk), <- loop_spec_None.
      destruct (loop_spec r (zd_RR zd !!! k)) as [[l rm]|].
      * split; [done|]. by intros [_ [?|?]].
      * split; [|done]. intros _. split; [by eexists|by right].
    + split; [|done]. intros _. split; [by eexists|by left].
  - unfold Find in Hzd. unfold Remove. rewrite Hzd.
    split; [done|]. by intros [[? ?] _].
Qed.

(** A [Remove] that returns: no error, the same origin, and either the same
    index or the index with the scanned list of the one name replaced by
    what the loop left of it. *)
Lemma Remove_returns `{NameSyntax} (z z' : Zone) (r : RR) (e : option Error) :
  Remove z r = Some (z', e) ->
  e = None /\ Origin z' = Origin z
  /\ exists l remove,
       loop_spec r (scanned_list z r) = Some (l, remove)
       /\ Wildcard z'
          = (if remove && is_wildcard (Name (Header r))
             then Z.max 0 (int_wrap (Wildcard z - 1)) else Wildcard z)
       /\ (if remove
           then exists zd k,
                  Find z (Name (Header r)) = Some zd /\ scanned_type r = Some k
                  /\ Radix z' = <[toRadixName (Name (Header r)) :=
                                   mkZoneData (zd_Name zd) (<[k := l]> (zd_RR zd))
                                     (Signatures zd) (NonAuth zd)]> (Radix z)
           else Radix z' = Radix z /\ l = scanned_list z r).
Proof.
  destruct (Find z (Name (Header r))) as [zd|] eqn:Hzd.
  - rewrite (Remove_found z r zd Hzd).
    destruct (scanned_type r) as [k|] eqn:Hk; [|done].
    rewrite (scanned_list_found z r zd k Hzd Hk).
    destruct (loop_spec r (zd_RR zd !!! k)) as [[l rm]|] eqn:Hloop; [|done].
    intros Hr. injection Hr as <- <-. simpl. split; [done|]. split; [done|].
    exists l, rm. split; [done|]. split.
    + destruct (rm && _); [|done].
      destruct (Z.ltb_spec (int_wrap (Wildcard z - 1)) 0); lia.
    + destruct rm.
      * by exists zd, k.
      * split; [done|].
        pose proof (loop_spec_Some _ _ _ _ Hloop) as (Hrm & _).
        symmetry in Hrm. apply bool_decide_eq_false in Hrm.
        pose proof (remove_loop_absent r _ Hrm) as Habs.
        rewrite remove_loop_spec, Hloop in Habs. by injection Habs.
  - unfold Find in Hzd. unfold Remove. rewrite Hzd.
    intros Hr. injection Hr as <- <-. split; [done|]. split; [done|].
    assert (scanned_list z r = []) as ->.
    { unfold scanned_list, stored, Find. rewrite Hzd. by destruct (scanned_type r). }
    exists [], false. by repeat split.
Qed.

(** The entries of the index behind a [Remove] that returns. *)
Lemma Remove_entries `{NameSyntax} (z z' : Zone) (r : RR) (e : option Error) :
  Remove z r = Some (z', e) ->
  forall key,
    match Radix z !! key with
    | None => Radix z' !! key = None
    | Some zd =>
        exists zd',
          Radix z' !! key = Some zd'
          /\ zd_Name zd' = zd_Name zd
          /\ Signatures zd' = Signatures zd
          /\ NonAuth zd' = NonAuth zd
          /\ forall t,
               zd_RR zd' !!! t `sublist_of` zd_RR zd !!! t
               /\ filter (fun x => r <> x) (zd_RR zd' !!! t)
                  = filter (fun x => r <> x) (zd_RR zd !!! t)
               /\ (key <> toRadixName (Name (Header r)) \/ scanned_type r <> Some t ->
                   zd_RR zd' !!! t = zd_RR zd !!! t)
    end.
Proof.
  intros Hr key.
  apply Remove_returns in Hr as (_ & _ & l & rm & Hloop & _ & Hradix).
  destruct rm.
  - destruct Hradix as (zd & k & Hzd & Hk & ->).
    rewrite (scanned_list_found z r zd k Hzd Hk) in Hloop.
    apply loop_spec_Some in Hloop as (_ & Hsub & Hfil & _).
    unfold Find in Hzd.
    destruct (decide (key = toRadixName (Name (Header r)))) as [->|Hkey].
    + rewrite Hzd, lookup_insert_eq. eexists. split; [reflexivity|]. simpl.
      repeat split; destruct (decide (t = k)) as [->|Ht];
        rewrite ?lookup_total_insert_eq, ?lookup_total_insert_ne by done; try done.
      intros [?|Hne]; congruence.
    + rewrite lookup_insert_ne by done.
      destruct (Radix z !! key) as [zd0|]; [|done]. exists zd0. by repeat split.
  - destruct Hradix as [-> _].
    destruct (Radix z !! key) as [zd0|]; [|done]. exists zd0. by repeat split.
Qed.

(** X14: [Remove] never takes a name out of the index and never touches the name,
    the signatures or the [NonAuth] flag of an entry; when it returns, it
    returns no error and the origin is the same. *)
Theorem Remove_keeps_index `{NameSyntax} (z z' : Zone) (r : RR) (e : option Error) :
  Remove z r = Some (z', e) ->
  e = None /\ Origin z' = Origin z
  /\ forall name,
       match Find z name with
       | None => Find z' name = None
       | Some zd =>
           exists zd',
             Find z' name = Some zd'
             /\ zd_Name zd' = zd_Name zd
             /\ Signatures zd' = Signatures zd
             /\ NonAuth zd' = NonAuth zd
       end.
Proof.
  intros Hr. pose proof (Remove_returns z z' r e Hr) as (He & Ho & _).
  split; [exact He|]. split; [exact Ho|]. intros name. unfold Find.
  pose proof (Remove_entries z z' r e Hr (toRadixName name)) as Hent.
  destruct (Radix z !! toRadixName name) as [zd|]; [|exact Hent].
  destruct Hent as (zd' & Hzd' & Hn & Hs & Hf & _). by exists zd'.
Qed.

Lemma Remove_keeps_index_witness :
  exists z',
    @Remove spec_syntax zone_www rr_a = Some (z', None)
    /\ Origin z' = Origin zone_www.
Proof.
  eexists. split; [vm_compute; reflexivity|].
  eapply (@Remove_keeps_index spec_syntax zone_www _ rr_a None).
  vm_compute; reflexivity.
Defined.

(** X15: Every plain list behind a [Remove] that returns is the list before it
    without some copies of the record: a sublist of it that holds the same
    other records in the same order. *)
Theorem Remove_drops_only_copies `{NameSyntax}
  (z z' : Zone) (r : RR) (e : option Error) (name : string) (t : Z) :
  Remove z r = Some (z', e) ->
  stored z' name t `sublist_of` stored z name t
  /\ filter (fun x => r <> x) (stored z' name t)
     = filter (fun x => r <> x) (stored z name t).
Proof.
  intros Hr. unfold stored, Find.
  pose proof (Remove_entries z z' r e Hr (toRadixName name)) as Hent.
  destruct (Radix z !! toRadixName name) as [zd|].
  - destruct Hent as (zd' & -> & _ & _ & _ & Hl).
    destruct (Hl t) as (Hsub & Hfil & _). done.
  - by rewrite Hent.
Qed.

(** X16: The lists of the other names and of the other types are left as they
    were. *)
Theorem Remove_frame `{NameSyntax}
  (z z' : Zone) (r : RR) (e : option Error) (name : string) (t : Z) :
  Remove z r = Some (z', e) ->
  toRadixName name <> toRadixName (Name (Header r)) \/ scanned_type r <> Some t ->
  stored z' name t = stored z name t
  /\ stored_signatures z' name t = stored_signatures z name t.
Proof.
  intros Hr Hother. unfold stored, stored_signatures, Find.
  pose proof (Remove_entries z z' r e Hr (toRadixName name)) as Hent.
  destruct (Radix z !! toRadixName name) as [zd|].
  - destruct Hent as (zd' & -> & _ & -> & _ & Hl).
    destruct (Hl t) as (_ & _ & Hsame). by rewrite Hsame.
  - by rewrite Hent.
Qed.

Lemma Remove_drops_only_copies_witness :
  exists z',
    @Remove spec_syntax zone_www rr_a = Some (z', None)
    /\ @stored spec_syntax z' "www.example." TypeA
       `sublist_of` @stored spec_syntax zone_www "www.example." TypeA.
Proof.
  eexists. split; [vm_compute; reflexivity|].
  eapply (@Remove_drops_only_copies spec_syntax zone_www _ rr_a None).
  vm_compute; reflexivity.
Defined.

Lemma Remove_frame_witness :
  exists z',
    @Remove spec_syntax zone_www rr_a = Some (z', None)
    /\ @stored spec_syntax z' "www.example." TypeNS
       = @stored spec_syntax zone_www "www.example." TypeNS.
Proof.
  eexists. split; [vm_compute; reflexivity|].
  eapply (@Remove_frame spec_syntax zone_www _ rr_a None "www.example." TypeNS).
  - vm_compute; reflexivity.
  - right. discriminate.
Defined.

(** X17: A [Remove] that returns has taken at least one copy of a stored record
    out of the list it scans. *)
Theorem Remove_takes_a_copy `{NameSyntax} (z z' : Zone) (r : RR) (e : option Error) :
  Remove z r = Some (z', e) ->
  r ∈ scanned_list z r ->
  (length (scanned_list z' r) < length (scanned_list z r))%nat.
Proof.
  intros Hr Hin.
  apply Remove_returns in Hr as (_ & _ & l & rm & Hloop & _ & Hradix).
  apply loop_spec_Some in Hloop as (-> & _ & _ & Hlen).
  rewrite bool_decide_eq_true_2 in Hradix by done.
  destruct Hradix as (zd & k & Hzd & Hk & Hradix).
  assert (scanned_list z' r = l) as ->; [|by apply Hlen].
  unfold scanned_list, stored, Find. rewrite Hk, Hradix, lookup_insert_eq. simpl.
  apply lookup_total_insert_eq.
Qed.

Lemma Remove_takes_a_copy_witness :
  exists z',
    @Remove spec_syntax zone_www rr_a = Some (z', None)
    /\ (length (@scanned_list spec_syntax z' rr_a)
        < length (@scanned_list spec_syntax zone_www rr_a))%nat.
Proof.
  eexists. split; [vm_compute; reflexivity|].
  eapply (@Remove_takes_a_copy spec_syntax zone_www _ rr_a None).
  - vm_compute; reflexivity.
  - vm_compute. left.
Defined.

(** X18: [Remove] returns no error and the zone as it was when the index does
    not hold the owner name of the record, and also when the type assertion
    of the signature arm, if it is made, succeeds and the scanned list does
    not hold the record. *)
Theorem Remove_not_stored `{NameSyntax} (z : Zone) (r : RR) :
  Find z (Name (Header r)) = None
  \/ (is_Some (scanned_type r) /\ r ∉ scanned_list z r) ->
  Remove z r = Some (z, None).
Proof.
  intros Hcase.
  destruct (Find z (Name (Header r))) as [zd|] eqn:Hzd.
  - destruct Hcase as [?|[[k Hk] Hnot]]; [done|].
    rewrite (Remove_found z r zd Hzd), Hk.
    rewrite (scanned_list_found z r zd k Hzd Hk) in Hnot.
    rewrite <- remove_loop_spec, (remove_loop_absent r _ Hnot). simpl.
    by rewrite Zone_eta.
  - unfold Find in Hzd. unfold Remove. by rewrite Hzd.
Qed.

Lemma Remove_not_stored_witness :
  @Remove spec_syntax zone_www rr_b = Some (zone_www, None)
  /\ @Remove spec_syntax zone_www (ptr_other 11 (mkHeader "nowhere.example." TypeRRSIG))
     = Some (zone_www, None).
Proof.
  split.
  - apply (@Remove_not_stored spec_syntax zone_www rr_b). right. split.
    + by eexists.
    + vm_compute. intros Hin. apply list_elem_of_singleton in Hin. discriminate Hin.
  - apply (@Remove_not_stored spec_syntax zone_www
             (ptr_other 11 (mkHeader "nowhere.example." TypeRRSIG))).
    left. reflexivity.
Defined.

(** X19: [Remove] counts the wildcard counter down, not below 0, exactly when it
    finds the record in the scanned list of a name that begins with ["*."];
    otherwise the counter stays. *)
Theorem Remove_wildcard_step `{NameSyntax} (z z' : Zone) (r : RR) (e : option Error) :
  Remove z r = Some (z', e) ->
  Wildcard z'
  = if bool_decide (r ∈ scanned_list z r) && is_wildcard (Name (Header r))
    then Z.max 0 (int_wrap (Wildcard z - 1))
    else Wildcard z.
Proof.
  intros Hr.
  apply Remove_returns in Hr as (_ & _ & l & rm & Hloop & Hw & _).
  apply loop_spec_Some in Hloop as (-> & _). exact Hw.
Qed.

Lemma Remove_wildcard_step_witness :
  exists z',
    @Remove spec_syntax zone_star rr_w1 = Some (z', None)
    /\ Wildcard z'
       = if bool_decide (rr_w1 ∈ @scanned_list spec_syntax zone_star rr_w1)
            && is_wildcard (Name (Header rr_w1))
         then Z.max 0 (int_wrap (Wildcard zone_star - 1))
         else Wildcard zone_star.
Proof.
  eexists. split; [vm_compute; reflexivity|].
  eapply (@Remove_wildcard_step spec_syntax zone_star _ rr_w1 None).
  vm_compute; reflexivity.
Defined.

(** ** Insert, call by call *)

(** The [switch] of [Insert], list by list. *)
Lemma file_rr_lists (origin : string) (r : RR) (zd zd' : ZoneData) :
  file_rr origin r zd = Some zd' ->
  zd_Name zd' = zd_Name zd
  /\ (forall t, zd_RR zd' !!! t = zd_RR zd !!! t ++ filed_plain r t)
  /\ (forall t, Signatures zd' !!! t = Signatures zd !!! t ++ filed_signature r t)
  /\ NonAuth zd'
     = (if decide (Rrtype (Header r) = TypeNS /\ Name (Header r) <> origin)
        then true else NonAuth zd).
Proof.
  unfold file_rr, filed_plain, filed_signature.
  destruct (Z.eqb_spec (Rrtype (Header r)) TypeRRSIG) as [Ht|Ht].
  - destruct (as_RRSIG r) as [sig|]; [|done]. intros Hf. injection Hf as <-. simpl.
    split; [done|]. split; [|split].
    + intros t. rewrite decide_False by tauto. by rewrite app_nil_r.
    + intros t. destruct (decide (t = TypeCovered sig)) as [->|Hne].
      * rewrite lookup_total_insert_eq. by rewrite decide_True.
      * rewrite lookup_total_insert_ne by done.
        rewrite decide_False by tauto. by rewrite app_nil_r.
    + rewrite decide_False; [done|]. rewrite Ht. intros [? _]. discriminate.
  - intros Hf. injection Hf as <-. simpl. split; [done|]. split; [|split].
    + intros t. destruct (decide (t = Rrtype (Header r))) as [->|Hne].
      * rewrite lookup_total_insert_eq. by rewrite decide_True.
      * rewrite lookup_total_insert_ne by done.
        rewrite decide_False by tauto. by rewrite app_nil_r.
    + intros t. destruct (as_RRSIG r); [|by rewrite app_nil_r].
      rewrite decide_False by tauto. by rewrite app_nil_r.
    + destruct (Z.eqb_spec (Rrtype (Header r)) TypeNS) as [Hns|Hns]; simpl.
      * destruct (String.eqb_spec (Name (Header r)) origin) as [Ho|Ho]; simpl.
        -- by rewrite decide_False by tauto.
        -- by rewrite decide_True.
      * by rewrite decide_False by tauto.
Qed.

(** [file_rr] fails on one kind of record only. *)
Lemma file_rr_None (origin : string) (r : RR) (zd : ZoneData) :
  file_rr origin r zd = None
  <-> Rrtype (Header r) = TypeRRSIG /\ as_RRSIG r = None.
Proof.
  unfold file_rr. destruct (Z.eqb_spec (Rrtype (Header r)) TypeRRSIG) as [Ht|Ht].
  - destruct (as_RRSIG r); split; try done. by intros [_ ?].
  - split; [done|]. by intros [? _].
Qed.

(** The two ways in which [Insert] returns. *)
Lemma Insert_returns `{NameSyntax} (z z' : Zone) (r : RR) (e : option Error) :
  Insert z r = Some (z', e) ->
  (IsSubDomain (Origin z) (Name (Header r)) = false
   /\ z' = z /\ e = Some (mkError "out of zone data" (Name (Header r))))
  \/ (IsSubDomain (Origin z) (Name (Header r)) = true
      /\ e = None
      /\ exists zd',
           file_rr (Origin z) r
             (default (newZoneData (Name (Header r))) (Find z (Name (Header r))))
           = Some zd'
           /\ z' = mkZone (Origin z)
                   (if bool_decide (Find z (Name (Header r)) = None)
                       && is_wildcard (Name (Header r))
                    then int_wrap (Wildcard z + 1) else Wildcard z)
                   (<[toRadixName (Name (Header r)) := zd']> (Radix z))).
Proof.
  unfold Insert, Find. destruct (IsSubDomain _ _); simpl.
  2:{ intros Hi. injection Hi as <- <-. by left. }
  intros Hi. right. split; [done|].
  destruct (Radix z !! toRadixName (Name (Header r))) as [found|]; simpl in *;
    destruct (file_rr (Origin z) r _) as [zd'|]; try done;
    injection Hi as <- <-; (split; [done|]); by exists zd'.
Qed.

(** X5: [Insert] panics exactly on an in-zone record whose header claims the
    signature type while the record is no signature record. *)
Theorem Insert_panics_iff `{NameSyntax} (z : Zone) (r : RR) :
  Insert z r = None
  <-> IsSubDomain (Origin z) (Name (Header r)) = true
      /\ Rrtype (Header r) = TypeRRSIG /\ as_RRSIG r = None.
Proof.
  unfold Insert. destruct (IsSubDomain _ _); simpl.
  2:{ split; [done|]. by intros [? _]. }
  destruct (Radix z !! toRadixName (Name (Header r))) as [found|].
  - rewrite <- (file_rr_None (Origin z) r found).
    destruct (file_rr (Origin z) r found); split; try done. by intros [_ ?].
  - rewrite <- (file_rr_None (Origin z) r (newZoneData (Name (Header r)))).
    destruct (file_rr (Origin z) r _); split; try done. by intros [_ ?].
Qed.

(** X6: An error from [Insert] is the out-of-zone error: the name is out of the
    zone, and the zone is as before. *)
Theorem Insert_error_out_of_zone `{NameSyntax} (z z' : Zone) (r : RR) (e : Error) :
  Insert z r = Some (z', Some e) ->
  IsSubDomain (Origin z) (Name (Header r)) = false
  /\ z' = z /\ e = mkError "out of zone data" (Name (Header r)).
Proof.
  intros Hi. apply Insert_returns in Hi as [(Hout & -> & He)|(_ & He & _)]; [|done].
  by injection He as <-.
Qed.

Lemma Insert_error_out_of_zone_witness :
  @IsSubDomain spec_syntax (Origin zone_example) (Name (Header rr_out)) = false.
Proof.
  eapply (@Insert_error_out_of_zone spec_syntax zone_example zone_example rr_out
            (mkError "out of zone data" "foo.other.")).
  vm_compute; reflexivity.
Defined.

(** X7: [Insert] appends: behind a call that returns without error, each list at
    the owner name is the list before it followed by what the call files
    there, the record itself in one list and nothing in the others. *)
Theorem Insert_appends `{NameSyntax} (z z' : Zone) (r : RR) (t : Z) :
  Insert z r = Some (z', None) ->
  stored z' (Name (Header r)) t = stored z (Name (Header r)) t ++ filed_plain r t
  /\ stored_signatures z' (Name (Header r)) t
     = stored_signatures z (Name (Header r)) t ++ filed_signature r t.
Proof.
  intros Hi. apply Insert_returns in Hi as [(_ & _ & ?)|(_ & _ & zd' & Hf & ->)]; [done|].
  apply file_rr_lists in Hf as (_ & Hplain & Hsig & _).
  unfold stored, stored_signatures, Find in *. simpl. rewrite lookup_insert_eq.
  rewrite Hplain, Hsig.
  by destruct (Radix z !! toRadixName (Name (Header r))).
Qed.

Lemma Insert_appends_witness :
  exists z',
    @Insert spec_syntax zone_www rr_b = Some (z', None)
    /\ @stored spec_syntax z' "www.example." TypeA = [rr_a; rr_b].
Proof.
  eexists. split; [vm_compute; reflexivity|].
  eapply (@Insert_appends spec_syntax zone_www _ rr_b TypeA).
  vm_compute; reflexivity.
Defined.

(** X8: [Insert] leaves the origin and every name with another key alone. *)
Theorem Insert_frame `{NameSyntax}
  (z z' : Zone) (r : RR) (e : option Error) (name : string) :
  Insert z r = Some (z', e) ->
  toRadixName name <> toRadixName (Name (Header r)) ->
  Origin z' = Origin z /\ Find z' name = Find z name.
Proof.
  intros Hi Hkey.
  apply Insert_returns in Hi as [(_ & -> & _)|(_ & _ & zd' & _ & ->)]; [done|].
  split; [done|]. unfold Find. simpl. by rewrite lookup_insert_ne.
Qed.

Lemma Insert_frame_witness :
  exists z',
    @Insert spec_syntax zone_www rr_ns_sub = Some (z', None)
    /\ @Find spec_syntax z' "www.example." = @Find spec_syntax zone_www "www.example.".
Proof.
  eexists. split; [vm_compute; reflexivity|].
  eapply (@Insert_frame spec_syntax zone_www _ rr_ns_sub None "www.example.").
  - vm_compute; reflexivity.
  - vm_compute. discriminate.
Defined.

(** X9: The entry at the owner name behind an [Insert]: it carries the name it
    was created with, which is the owner name of the record for a new name,
    and its [NonAuth] flag is set by an NS record off the origin and is
    otherwise the flag before the call, false for a new name. *)
Theorem Insert_entry `{NameSyntax} (z z' : Zone) (r : RR) :
  Insert z r = Some (z', None) ->
  exists zd',
    Find z' (Name (Header r)) = Some zd'
    /\ zd_Name zd' = default (Name (Header r)) (zd_Name <$> Find z (Name (Header r)))
    /\ NonAuth zd'
       = (if decide (Rrtype (Header r) = TypeNS /\ Name (Header r) <> Origin z)
          then true
          else default false (NonAuth <$> Find z (Name (Header r)))).
Proof.
  intros Hi. apply Insert_returns in Hi as [(_ & _ & ?)|(_ & _ & zd' & Hf & ->)]; [done|].
  apply file_rr_lists in Hf as (Hname & _ & _ & Hflag).
  exists zd'. unfold Find in *. simpl. rewrite lookup_insert_eq.
  split; [done|]. rewrite Hname, Hflag.
  by destruct (Radix z !! toRadixName (Name (Header r))).
Qed.

Lemma Insert_entry_witness :
  exists z' zd',
    @Insert spec_syntax zone_www (ptr_other 9 (mkHeader "WWW.Example." TypeA))
    = Some (z', None)
    /\ @Find spec_syntax z' "WWW.Example." = Some zd'
    /\ zd_Name zd' = "www.example."%string.
Proof.
  eexists.
  destruct (@Insert_entry spec_syntax zone_www
              (mkZone "example." 0
                 {[ ".example.www." :=
                      mkZoneData "www.example."
                        {[ TypeA := [rr_a; ptr_other 9 (mkHeader "WWW.Example." TypeA)] ]}
                        ∅ false ]})
              (ptr_other 9 (mkHeader "WWW.Example." TypeA)))
    as (zd' & Hfind & Hname & _); [vm_compute; reflexivity|].
  exists zd'. split; [vm_compute; reflexivity|]. split; [exact Hfind|exact Hname].
Defined.

(** X10: [Insert] counts the wildcard counter up exactly when it creates the entry
    of a name that begins with ["*."]. *)
Theorem Insert_wildcard_step `{NameSyntax} (z z' : Zone) (r : RR) :
  Insert z r = Some (z', None) ->
  Wildcard z'
  = if bool_decide (Find z (Name (Header r)) = None) && is_wildcard (Name (Header r))
    then int_wrap (Wildcard z + 1)
    else Wildcard z.
Proof.
  intros Hi. by apply Insert_returns in Hi as [(_ & _ & ?)|(_ & _ & zd' & _ & ->)].
Qed.

Lemma Insert_wildcard_step_witness :
  exists z',
    @Insert spec_syntax zone_star rr_w2 = Some (z', None)
    /\ Wildcard z' = Wildcard zone_star.
Proof.
  eexists. split; [vm_compute; reflexivity|].
  eapply (@Insert_wildcard_step spec_syntax zone_star _ rr_w2).
  vm_compute; reflexivity.
Defined.

(** [Insert] of an in-zone record that is no signature: the call returns
    without error and the record is the last of its list. *)
Lemma Insert_plain_record `{NameSyntax} (z : Zone) (r : RR) :
  IsSubDomain (Origin z) (Name (Header r)) = true ->
  Rrtype (Header r) <> TypeRRSIG ->
  exists z1,
    Insert z r = Some (z1, None)
    /\ Origin z1 = Origin z
    /\ is_Some (Find z1 (Name (Header r)))
    /\ stored z1 (Name (Header r)) (Rrtype (Header r))
       = stored z (Name (Header r)) (Rrtype (Header r)) ++ [r].
Proof.
  intros Hin Ht.
  destruct (file_rr (Origin z) r
              (default (newZoneData (Name (Header r))) (Find z (Name (Header r)))))
    as [zd'|] eqn:Hf.
  2:{ apply file_rr_None in Hf as [? _]. done. }
  destruct (Insert_in_zone z r zd' Hin Hf) as (z1 & Hi & Ho & Hradix).
  exists z1. split; [exact Hi|]. split; [exact Ho|].
  apply file_rr_lists in Hf as (_ & Hplain & _).
  unfold stored, Find in *. rewrite Hradix, lookup_insert_eq.
  split; [by eexists|]. rewrite Hplain. unfold filed_plain.
  rewrite decide_True by done.
  by destruct (Radix z !! toRadixName (Name (Header r))).
Qed.

(** X11: No check for duplicates: two calls of [Insert] with the same in-zone
    record, which is no signature, store it twice. *)
Theorem Insert_twice_stores_twice `{NameSyntax} (z : Zone) (r : RR) :
  IsSubDomain (Origin z) (Name (Header r)) = true ->
  Rrtype (Header r) <> TypeRRSIG ->
  exists z2,
    run z [OpInsert r; OpInsert r] = Some z2
    /\ stored z2 (Name (Header r)) (Rrtype (Header r))
       = stored z (Name (Header r)) (Rrtype (Header r)) ++ [r; r].
Proof.
  intros Hin Ht.
  destruct (Insert_plain_record z r Hin Ht) as (z1 & Hi1 & Ho1 & _ & Hs1).
  rewrite <- Ho1 in Hin.
  destruct (Insert_plain_record z1 r Hin Ht) as (z2 & Hi2 & _ & _ & Hs2).
  exists z2. simpl. rewrite Hi1, Hi2. split; [done|].
  by rewrite Hs2, Hs1, <- app_assoc.
Qed.

Lemma Insert_twice_stores_twice_witness :
  exists z2,
    @run spec_syntax zone_example [OpInsert rr_a; OpInsert rr_a] = Some z2
    /\ @stored spec_syntax z2 "www.example." TypeA = [rr_a; rr_a].
Proof.
  apply (@Insert_twice_stores_twice spec_syntax zone_example rr_a).
  - reflexivity.
  - discriminate.
Defined.

(** X12: [Insert] then [Remove] of a record that was not stored before, and that
    is no signature, gives the list back as it was; the name stays in the
    index. *)
Theorem Insert_then_Remove `{NameSyntax} (z : Zone) (r : RR) :
  IsSubDomain (Origin z) (Name (Header r)) = true ->
  Rrtype (Header r) <> TypeRRSIG ->
  r ∉ stored z (Name (Header r)) (Rrtype (Header r)) ->
  exists z2,
    run z [OpInsert r; OpRemove r] = Some z2
    /\ stored z2 (Name (Header r)) (Rrtype (Header r))
       = stored z (Name (Header r)) (Rrtype (Header r))
    /\ is_Some (Find z2 (Name (Header r))).
Proof.
  intros Hin Ht Hnot.
  destruct (Insert_plain_record z r Hin Ht) as (z1 & Hi & _ & Hsome & Hs1).
  destruct (Remove_stored_once z1 r (stored z (Name (Header r)) (Rrtype (Header r))) []
              Ht Hsome Hs1 Hnot) as (z2 & Hr & Hs2).
  { apply not_elem_of_nil. }
  exists z2. simpl. rewrite Hi, Hr. split; [done|].
  split; [by rewrite Hs2, app_nil_r|].
  apply Remove_returns in Hr as (_ & _ & l & rm & _ & _ & Hradix).
  destruct rm.
  - destruct Hradix as (zd & k & _ & _ & Hradix).
    unfold Find. rewrite Hradix, lookup_insert_eq. by eexists.
  - destruct Hradix as [Hradix _]. unfold Find in *. by rewrite Hradix.
Qed.

Lemma Insert_then_Remove_witness :
  exists z2,
    @run spec_syntax zone_www [OpInsert rr_b; OpRemove rr_b] = Some z2
    /\ @stored spec_syntax z2 "www.example." TypeA = [rr_a].
Proof.
  destruct (@Insert_then_Remove spec_syntax zone_www rr_b) as (z2 & Hrun & Hs & _).
  - reflexivity.
  - discriminate.
  - vm_compute. intros Hin. apply list_elem_of_singleton in Hin. discriminate Hin.
  - exists z2. split; [exact Hrun|exact Hs].
Defined.

(** ** What every zone built by Insert and Remove satisfies *)

Lemma well_filed_Insert `{NameSyntax} (z z' : Zone) (r : RR) (e : option Error) :
  Insert z r = Some (z', e) -> well_filed z -> well_filed z'.
Proof.
  intros Hi Hwf.
  apply Insert_returns in Hi as [(_ & -> & _)|(Hin & _ & zd' & Hf & ->)]; [done|].
  apply file_rr_lists in Hf as (Hname & Hplain & Hsig & Hflag).
  intros key zd. simpl.
  destruct (decide (key = toRadixName (Name (Header r)))) as [->|Hkey].
  2:{ rewrite lookup_insert_ne by done. apply Hwf. }
  rewrite lookup_insert_eq. intros Hzd. injection Hzd as <-.
  unfold Find in *.
  destruct (Radix z !! toRadixName (Name (Header r))) as [found|] eqn:Hfound;
    simpl in *.
  - destruct (Hwf _ _ Hfound) as (Hk & Hrr & Hss).
    split; [by rewrite Hname|]. split.
    + intros t r' Hr'. rewrite Hplain in Hr'.
      apply elem_of_app in Hr' as [Hr'|Hr'].
      * destruct (Hrr t r' Hr') as (? & ? & ? & ? & Hns). repeat split; try done.
        intros Ht Ho. rewrite Hflag, (Hns Ht Ho). by destruct (decide _).
      * unfold filed_plain in Hr'.
        destruct (decide (Rrtype (Header r) <> TypeRRSIG /\ t = Rrtype (Header r)))
          as [[Ht ->]|]; [|by inversion Hr'].
        apply list_elem_of_singleton in Hr'. subst r'. repeat split; try done.
        intros Hns Ho. rewrite Hflag. by rewrite decide_True.
    + intros t sig Hs. rewrite Hsig in Hs.
      apply elem_of_app in Hs as [Hs|Hs]; [by apply Hss|].
      unfold filed_signature in Hs. destruct r as [s|]; [|by inversion Hs]. simpl in *.
      destruct (decide (Rrtype (sig_Hdr s) = TypeRRSIG /\ t = TypeCovered s))
        as [[Ht ->]|]; [|by inversion Hs].
      apply list_elem_of_singleton in Hs. subst sig. done.
  - split; [by rewrite Hname|]. split.
    + intros t r' Hr'. rewrite Hplain, lookup_total_empty in Hr'.
      unfold filed_plain in Hr'.
        destruct (decide (Rrtype (Header r) <> TypeRRSIG /\ t = Rrtype (Header r)))
          as [[Ht ->]|]; [|by inversion Hr'].
      apply list_elem_of_singleton in Hr'. subst r'. repeat split; try done.
      intros Hns Ho. rewrite Hflag. by rewrite decide_True.
    + intros t sig Hs. rewrite Hsig, lookup_total_empty in Hs.
      unfold filed_signature in Hs. destruct r as [s|]; [|by inversion Hs]. simpl in *.
      destruct (decide (Rrtype (sig_Hdr s) = TypeRRSIG /\ t = TypeCovered s))
        as [[Ht ->]|]; [|by inversion Hs].
      apply list_elem_of_singleton in Hs. subst sig. done.
Qed.

Lemma well_filed_Remove `{NameSyntax} (z z' : Zone) (r : RR) (e : option Error) :
  Remove z r = Some (z', e) -> well_filed z -> well_filed z'.
Proof.
  intros Hr Hwf key zd' Hzd'.
  pose proof (Remove_returns z z' r e Hr) as (_ & Ho & _).
  pose proof (Remove_entries z z' r e Hr key) as Hent.
  destruct (Radix z !! key) as [zd|] eqn:Hzd; [|congruence].
  destruct Hent as (zd1 & Hzd1 & Hname & Hsig & Hflag & Hl).
  rewrite Hzd' in Hzd1. injection Hzd1 as <-.
  destruct (Hwf _ _ Hzd) as (Hk & Hrr & Hss).
  rewrite Hname, Hsig, Hflag, Ho. split; [done|]. split; [|done].
  intros t r' Hr'. apply Hrr.
  destruct (Hl t) as (Hsub & _). by eapply elem_of_sublist.
Qed.

Lemma well_filed_run `{NameSyntax} (ops : list Op) (z z' : Zone) :
  run z ops = Some z' -> well_filed z -> well_filed z'.
Proof.
  revert z. induction ops as [|op ops IH]; intros z; simpl.
  - intros Hr. by injection Hr as <-.
  - destruct (call z op) as [[z1 e]|] eqn:Hcall; [|discriminate].
    intros Hr Hwf. apply (IH z1 Hr).
    destruct op; simpl in Hcall;
      [by eapply well_filed_Insert|by eapply well_filed_Remove].
Qed.

Lemma well_filed_NewZone `{NameSyntax} (origin : string) (z0 z : Zone) (ops : list Op) :
  NewZone origin = Some z0 -> run z0 ops = Some z -> well_filed z.
Proof.
  intros Hnew Hrun. apply (well_filed_run ops z0 z Hrun).
  apply NewZone_fresh in Hnew as [_ Hradix].
  intros key zd. by rewrite Hradix, lookup_empty.
Qed.

(** X20: In a zone built from a new one by calls of [Insert] and [Remove], the
    entry that [Find] returns for a name was created for a name with the
    same key. *)
Theorem Find_entry_has_key `{NameSyntax}
  (origin : string) (z0 z : Zone) (ops : list Op) (name : string) (zd : ZoneData) :
  NewZone origin = Some z0 ->
  run z0 ops = Some z ->
  Find z name = Some zd ->
  toRadixName (zd_Name zd) = toRadixName name.
Proof.
  intros Hnew Hrun Hzd.
  destruct (well_filed_NewZone origin z0 z ops Hnew Hrun _ _ Hzd) as (Hk & _). done.
Qed.

Lemma Find_entry_has_key_witness :
  @toRadixName spec_syntax "www.example." = @toRadixName spec_syntax "WWW.example.".
Proof.
  apply (@Find_entry_has_key spec_syntax "example." zone_example zone_www
           [OpInsert rr_a] "WWW.example."
           (mkZoneData "www.example." {[ TypeA := [rr_a] ]} ∅ false));
    vm_compute; reflexivity.
Defined.

(** X21: In a zone built from a new one by calls of [Insert] and [Remove]
    every stored record lies in the list of its own type,
    which is not the signature type, under the key of its own owner name,
    and its owner name is in the zone. *)
Theorem stored_records_in_place `{NameSyntax}
  (origin : string) (z0 z : Zone) (ops : list Op) (name : string) (t : Z) (r : RR) :
  NewZone origin = Some z0 ->
  run z0 ops = Some z ->
  r ∈ stored z name t ->
  Rrtype (Header r) = t /\ t <> TypeRRSIG
  /\ toRadixName (Name (Header r)) = toRadixName name
  /\ IsSubDomain (Origin z) (Name (Header r)) = true.
Proof.
  intros Hnew Hrun Hr. unfold stored in Hr.
  destruct (Find z name) as [zd|] eqn:Hzd; [|by apply elem_of_nil in Hr].
  destruct (well_filed_NewZone origin z0 z ops Hnew Hrun _ _ Hzd) as (_ & Hrr & _).
  destruct (Hrr t r Hr) as (? & ? & ? & ? & _). done.
Qed.

Lemma stored_records_in_place_witness :
  Rrtype (Header rr_a) = TypeA /\ TypeA <> TypeRRSIG
  /\ @toRadixName spec_syntax (Name (Header rr_a)) = @toRadixName spec_syntax "www.example."
  /\ @IsSubDomain spec_syntax (Origin zone_www) (Name (Header rr_a)) = true.
Proof.
  apply (@stored_records_in_place spec_syntax "example." zone_example zone_www
           [OpInsert rr_a] "www.example." TypeA rr_a).
  - vm_compute; reflexivity.
  - vm_compute; reflexivity.
  - vm_compute. left.
Defined.

(** X22: In a zone built from a new one by calls of [Insert] and [Remove]
    every stored signature lies in the list of its covered
    type under the key of its own owner name, which is in the zone, and its
    header carries the signature type. *)
Theorem stored_signatures_in_place `{NameSyntax}
  (origin : string) (z0 z : Zone) (ops : list Op) (name : string) (t : Z)
  (sig : RR_RRSIG) :
  NewZone origin = Some z0 ->
  run z0 ops = Some z ->
  sig ∈ stored_signatures z name t ->
  TypeCovered sig = t /\ Rrtype (sig_Hdr sig) = TypeRRSIG
  /\ toRadixName (Name (sig_Hdr sig)) = toRadixName name
  /\ IsSubDomain (Origin z) (Name (sig_Hdr sig)) = true.
Proof.
  intros Hnew Hrun Hs. unfold stored_signatures in Hs.
  destruct (Find z name) as [zd|] eqn:Hzd; [|by apply elem_of_nil in Hs].
  destruct (well_filed_NewZone origin z0 z ops Hnew Hrun _ _ Hzd) as (_ & _ & Hss).
  by apply Hss.
Qed.

Lemma stored_signatures_in_place_witness :
  TypeCovered (mkRRSIG 3 (mkHeader "www.example." TypeRRSIG) TypeA) = TypeA
  /\ Rrtype (mkHeader "www.example." TypeRRSIG) = TypeRRSIG
  /\ @toRadixName spec_syntax "www.example." = @toRadixName spec_syntax "www.example."
  /\ @IsSubDomain spec_syntax "example." "www.example." = true.
Proof.
  apply (@stored_signatures_in_place spec_syntax "example." zone_example
           (mkZone "example." 0
              {[ ".example.www." :=
                   mkZoneData "www.example." ∅
                     {[ TypeA := [mkRRSIG 3 (mkHeader "www.example." TypeRRSIG) TypeA] ]}
                     false ]})
           [OpInsert rr_sig] "www.example." TypeA
           (mkRRSIG 3 (mkHeader "www.example." TypeRRSIG) TypeA)).
  - vm_compute; reflexivity.
  - vm_compute; reflexivity.
  - vm_compute. left.
Defined.

(** X23: In a zone built from a new one by calls of [Insert] and [Remove]
    an entry that holds an NS record whose owner name is not
    the origin is flagged [NonAuth]: [Remove] never clears the flag, and
    [Insert] sets it with the record. *)
Theorem delegations_flagged `{NameSyntax}
  (origin : string) (z0 z : Zone) (ops : list Op) (name : string) (zd : ZoneData)
  (r : RR) :
  NewZone origin = Some z0 ->
  run z0 ops = Some z ->
  Find z name = Some zd ->
  r ∈ zd_RR zd !!! TypeNS ->
  Name (Header r) <> Origin z ->
  NonAuth zd = true.
Proof.
  intros Hnew Hrun Hzd Hr Ho.
  destruct (well_filed_NewZone origin z0 z ops Hnew Hrun _ _ Hzd) as (_ & Hrr & _).
  destruct (Hrr TypeNS r Hr) as (_ & _ & _ & _ & Hns). by apply Hns.
Qed.

Lemma delegations_flagged_witness :
  NonAuth (mkZoneData "sub.example." {[ TypeNS := [rr_ns_sub] ]} ∅ true) = true.
Proof.
  apply (@delegations_flagged spec_syntax "example." zone_example
           (mkZone "example." 0
              {[ ".example.sub." :=
                   mkZoneData "sub.example." {[ TypeNS := [rr_ns_sub] ]} ∅ true ]})
           [OpInsert rr_ns_sub] "sub.example."
           (mkZoneData "sub.example." {[ TypeNS := [rr_ns_sub] ]} ∅ true) rr_ns_sub).
  - vm_compute; reflexivity.
  - vm_compute; reflexivity.
  - vm_compute; reflexivity.
  - vm_compute. left.
  - vm_compute. discriminate.
Defined.

(** X24: In a zone built from a new one by calls of [Insert] and [Remove]
    [Remove] of a signature record changes nothing: it looks
    for the record in a plain list, and no plain list holds a record of the
    signature type. *)
Theorem Remove_signature_changes_nothing `{NameSyntax}
  (origin : string) (z0 z : Zone) (ops : list Op) (r : RR) :
  NewZone origin = Some z0 ->
  run z0 ops = Some z ->
  Rrtype (Header r) = TypeRRSIG ->
  is_Some (as_RRSIG r) ->
  Remove z r = Some (z, None).
Proof.
  intros Hnew Hrun Ht [sig Hsig].
  assert (scanned_type r = Some (TypeCovered sig)) as Hk.
  { unfold scanned_type. by rewrite Ht, Hsig. }
  destruct (Find z (Name (Header r))) as [zd|] eqn:Hzd.
  - destruct (well_filed_NewZone origin z0 z ops Hnew Hrun _ _ Hzd) as (_ & Hrr & _).
    assert (r ∉ zd_RR zd !!! TypeCovered sig) as Hnot.
    { intros Hin. destruct (Hrr _ r Hin) as (Ht' & Hne & _). congruence. }
    rewrite (Remove_found z r zd Hzd), Hk.
    rewrite <- remove_loop_spec, (remove_loop_absent r _ Hnot). simpl.
    by rewrite Zone_eta.
  - unfold Find in Hzd. unfold Remove. by rewrite Hzd.
Qed.

Lemma Remove_signature_changes_nothing_witness :
  @Remove spec_syntax
    (mkZone "example." 0
       {[ ".example.www." :=
            mkZoneData "www.example." ∅
              {[ TypeA := [mkRRSIG 3 (mkHeader "www.example." TypeRRSIG) TypeA] ]}
              false ]})
    rr_sig
  = Some (mkZone "example." 0
            {[ ".example.www." :=
                 mkZoneData "www.example." ∅
                   {[ TypeA := [mkRRSIG 3 (mkHeader "www.example." TypeRRSIG) TypeA] ]}
                   false ]}, None).
Proof.
  apply (@Remove_signature_changes_nothing spec_syntax "example." zone_example _
           [OpInsert rr_sig] rr_sig).
  - vm_compute; reflexivity.
  - vm_compute; reflexivity.
  - reflexivity.
  - by eexists.
Defined.

(** ** Along a sequence of calls *)

Lemma Insert_keeps_entry `{NameSyntax}
  (z z' : Zone) (r : RR) (e : option Error) (name : string) (zd : ZoneData) :
  Insert z r = Some (z', e) ->
  Find z name = Some zd ->
  exists zd',
    Find z' name = Some zd' /\ zd_Name zd' = zd_Name zd
    /\ (NonAuth zd = true -> NonAuth zd' = true).
Proof.
  intros Hi Hzd.
  apply Insert_returns in Hi as [(_ & -> & _)|(_ & _ & zd' & Hf & ->)];
    [by exists zd|].
  unfold Find in *. simpl.
  destruct (decide (toRadixName name = toRadixName (Name (Header r)))) as [Hkey|Hkey].
  - rewrite Hkey in *. rewrite Hzd in Hf. simpl in Hf.
    apply file_rr_lists in Hf as (Hname & _ & _ & Hflag).
    exists zd'. rewrite lookup_insert_eq. split; [done|]. split; [done|].
    intros Hset. rewrite Hflag, Hset. by destruct (decide _).
  - exists zd. by rewrite lookup_insert_ne.
Qed.

(** X25: No sequence of calls changes the origin, takes a name out of the index,
    changes the spelling an entry was created with, or clears a [NonAuth]
    flag. *)
Theorem run_keeps_names `{NameSyntax}
  (ops : list Op) (z z' : Zone) (name : string) (zd : ZoneData) :
  run z ops = Some z' ->
  Find z name = Some zd ->
  Origin z' = Origin z
  /\ exists zd',
       Find z' name = Some zd' /\ zd_Name zd' = zd_Name zd
       /\ (NonAuth zd = true -> NonAuth zd' = true).
Proof.
  revert z zd. induction ops as [|op ops IH]; intros z zd; simpl.
  - intros Hr Hzd. injection Hr as <-. split; [done|]. by exists zd.
  - destruct (call z op) as [[z1 e]|] eqn:Hcall; [|discriminate].
    intros Hr Hzd.
    assert (Origin z1 = Origin z
            /\ exists zd1, Find z1 name = Some zd1 /\ zd_Name zd1 = zd_Name zd
                           /\ (NonAuth zd = true -> NonAuth zd1 = true))
      as (Ho & zd1 & Hzd1 & Hn1 & Hf1).
    { destruct op as [r|r]; simpl in Hcall.
      - split; [|by eapply Insert_keeps_entry].
        by apply Insert_returns in Hcall as [(_ & -> & _)|(_ & _ & ? & _ & ->)].
      - pose proof (Remove_returns z z1 r e Hcall) as (_ & Ho & _). split; [done|].
        pose proof (Remove_entries z z1 r e Hcall (toRadixName name)) as Hent.
        unfold Find in *. rewrite Hzd in Hent.
        destruct Hent as (zd1 & ? & ? & _ & Hflag & _). exists zd1.
        split; [done|]. split; [done|]. by rewrite Hflag. }
    destruct (IH z1 zd1 Hr Hzd1) as (Ho' & zd' & Hzd' & Hn' & Hf').
    split; [congruence|]. exists zd'. split; [done|]. split; [congruence|]. auto.
Qed.

Lemma run_keeps_names_witness :
  exists z',
    @run spec_syntax zone_www [OpRemove rr_a; OpInsert rr_b] = Some z'
    /\ Origin z' = Origin zone_www
    /\ exists zd',
         @Find spec_syntax z' "www.example." = Some zd'
         /\ zd_Name zd' = zd_Name (mkZoneData "www.example." {[ TypeA := [rr_a] ]} ∅ false)
         /\ (NonAuth (mkZoneData "www.example." {[ TypeA := [rr_a] ]} ∅ false) = true ->
             NonAuth zd' = true).
Proof.
  eexists. split; [vm_compute; reflexivity|].
  eapply (@run_keeps_names spec_syntax [OpRemove rr_a; OpInsert rr_b] zone_www _
            "www.example." (mkZoneData "www.example." {[ TypeA := [rr_a] ]} ∅ false));
    vm_compute; reflexivity.
Defined.

(** X26: Calls for records whose names do not begin with ["*."] leave the
    wildcard counter where it is. *)
Theorem Wildcard_moves_on_wildcard_names `{NameSyntax} (ops : list Op) (z z' : Zone) :
  forallb (fun op => negb (is_wildcard (Name (Header (op_record op))))) ops = true ->
  run z ops = Some z' ->
  Wildcard z' = Wildcard z.
Proof.
  revert z. induction ops as [|op ops IH]; intros z; simpl.
  - intros _ Hr. by injection Hr as <-.
  - intros Hops. apply andb_prop in Hops as [Hop Hops].
    apply negb_true_iff in Hop.
    destruct (call z op) as [[z1 e]|] eqn:Hcall; [|discriminate].
    intros Hr. rewrite (IH z1 Hops Hr).
    destruct op as [r|r]; simpl in *.
    + apply Insert_returns in Hcall as [(_ & -> & _)|(_ & _ & ? & _ & ->)]; [done|].
      simpl. by rewrite Hop, andb_false_r.
    + apply Remove_returns in Hcall as (_ & _ & l & rm & _ & -> & _).
      by rewrite Hop, andb_false_r.
Qed.

Lemma Wildcard_moves_on_wildcard_names_witness :
  exists z',
    @run spec_syntax zone_star [OpInsert rr_a; OpRemove rr_a; OpInsert rr_ns_sub] = Some z'
    /\ Wildcard z' = Wildcard zone_star.
Proof.
  eexists. split; [vm_compute; reflexivity|].
  eapply (@Wildcard_moves_on_wildcard_names spec_syntax
            [OpInsert rr_a; OpRemove rr_a; OpInsert rr_ns_sub] zone_star);
    vm_compute; reflexivity.
Defined.

(** ** A new zone *)

(** X4: [NewZone] returns nil exactly when [IsDomainName] rejects the origin, the
    empty origin standing for the root; the zone it returns has the origin
    made fully qualified and the counter at 0, [Find] finds no name in it and
    [Remove] of any record returns it unchanged. *)
Theorem NewZone_nil_or_empty `{NameSyntax} (origin : string) :
  match NewZone origin with
  | None => IsDomainName (if String.eqb origin "" then "." else origin) = false
  | Some z =>
      IsDomainName (if String.eqb origin "" then "." else origin) = true
      /\ Origin z = Fqdn (if String.eqb origin "" then "." else origin)
      /\ Wildcard z = 0
      /\ (forall name, Find z name = None)
      /\ (forall r, Remove z r = Some (z, None))
  end.
Proof.
  unfold NewZone. destruct (IsDomainName _); [|reflexivity].
  split; [reflexivity|]. split; [reflexivity|]. split; [reflexivity|]. split.
  - intros name. unfold Find. simpl. apply lookup_empty.
  - intros r. unfold Remove. simpl. by rewrite lookup_empty.
Qed.

(** ** More on keys *)

Lemma lower_byte_idem (c : ascii) : lower_byte (lower_byte c) = lower_byte c.
Proof. destruct c as [[] [] [] [] [] [] [] []]; reflexivity. Qed.

Lemma ToLower_idem (s : string) : ToLower (ToLower s) = ToLower s.
Proof. induction s as [|c s IH]; simpl; [done|]. by rewrite lower_byte_idem, IH. Qed.

Lemma ToLower_app (s t : string) : ToLower (s +:+ t) = ToLower s +:+ ToLower t.
Proof.
  induction s as [|c s IH]; [reflexivity|].
  rewrite str_app_cons. simpl. by rewrite IH, str_app_cons.
Qed.

Lemma lower_byte_ascii (c : ascii) :
  (N_of_ascii c <? 128)%N = true -> (N_of_ascii (lower_byte c) <? 128)%N = true.
Proof.
  destruct c as [[] [] [] [] [] [] [] []]; vm_compute; intros Hc;
    first [reflexivity | discriminate Hc].
Qed.

Lemma ToLower_ascii (s : string) : is_ascii s = true -> is_ascii (ToLower s) = true.
Proof.
  induction s as [|c s IH]; simpl; [done|].
  intros [Hc Hs]%andb_prop. by rewrite lower_byte_ascii, IH.
Qed.

Lemma is_ascii_app (s t : string) : is_ascii (s +:+ t) = is_ascii s && is_ascii t.
Proof.
  induction s as [|c s IH]; [reflexivity|].
  rewrite str_app_cons. simpl. by rewrite IH, andb_assoc.
Qed.

(** X1: for a name whose labels are ASCII strings, the key is an ASCII string
    in lower case: [ToLower] leaves it as it is, whatever the case of the
    labels. *)
Theorem toRadixName_lowercase `{NameSyntax} (d : string) :
  forallb is_ascii (SplitLabels d) = true ->
  is_ascii (toRadixName d) = true /\ ToLower (toRadixName d) = toRadixName d.
Proof.
  intros Hd. unfold toRadixName. destruct (String.eqb d "."); [by split|].
  rewrite is_ascii_app, ToLower_app.
  assert (forall ls acc,
            forallb is_ascii ls = true -> is_ascii acc = true -> ToLower acc = acc ->
            is_ascii (fold_left (fun s l => ToLower l +:+ "." +:+ s) ls acc) = true
            /\ ToLower (fold_left (fun s l => ToLower l +:+ "." +:+ s) ls acc)
               = fold_left (fun s l => ToLower l +:+ "." +:+ s) ls acc) as Hloop.
  { induction ls as [|l ls IH]; intros acc Hls Hacc Hlow; simpl; [by split|].
    simpl in Hls. apply andb_prop in Hls as [Hl Hls]. apply IH; [exact Hls| |].
    - by rewrite !is_ascii_app, (ToLower_ascii l Hl), Hacc.
    - by rewrite !ToLower_app, ToLower_idem, Hlow. }
  destruct (Hloop (SplitLabels d) ""%string Hd eq_refl eq_refl) as [Hascii Hlow].
  split; [by rewrite Hascii|by rewrite Hlow].
Qed.

Lemma toRadixName_lowercase_witness :
  is_ascii (@toRadixName spec_syntax "Www.Example.") = true
  /\ ToLower (@toRadixName spec_syntax "Www.Example.")
     = @toRadixName spec_syntax "Www.Example.".
Proof.
  apply (@toRadixName_lowercase spec_syntax "Www.Example."). reflexivity.
Defined.

(** The loop on labels that are lowercased beforehand. *)
Lemma loop_on_lowered (ls : list string) (acc : string) :
  fold_left (fun s l => ToLower l +:+ "." +:+ s) ls acc
  = fold_left (fun s l => l +:+ "." +:+ s) (map ToLower ls) acc.
Proof.
  revert acc. induction ls as [|l ls IH]; intros acc; simpl; [reflexivity|]. apply IH.
Qed.

(** X2: Lookup does not see letter case: two names, neither the root, whose
    lowercased labels agree have the same key, and [Find] returns the same
    entry for both. *)
Theorem Find_ignores_case `{NameSyntax} (z : Zone) (a b : string) :
  a <> "."%string -> b <> "."%string ->
  map ToLower (SplitLabels a) = map ToLower (SplitLabels b) ->
  toRadixName a = toRadixName b /\ Find z a = Find z b.
Proof.
  intros Ha Hb Hl.
  assert (toRadixName a = toRadixName b) as Hkey.
  { unfold toRadixName.
    apply String.eqb_neq in Ha, Hb. rewrite Ha, Hb.
    by rewrite !loop_on_lowered, Hl. }
  split; [exact Hkey|]. unfold Find. by rewrite Hkey.
Qed.

Lemma Find_ignores_case_witness :
  @toRadixName spec_syntax "WWW.Example." = @toRadixName spec_syntax "www.example."
  /\ @Find spec_syntax zone_www "WWW.Example." = @Find spec_syntax zone_www "www.example.".
Proof.
  apply (@Find_ignores_case spec_syntax zone_www "WWW.Example." "www.example.").
  - discriminate.
  - discriminate.
  - reflexivity.
Defined.

Lemma plain_byte_above_dot (c : ascii) :
  (46 <? N_of_ascii c)%N && (N_of_ascii c <? 128)%N && negb (Ascii.eqb c "\") = true ->
  (46 <? N_of_ascii (lower_byte c))%N = true.
Proof.
  destruct c as [[] [] [] [] [] [] [] []]; vm_compute; intros Hc;
    first [reflexivity | discriminate Hc].
Qed.

Lemma plain_label_above_dot (l : string) :
  plain_label l = true -> above_dot (ToLower l) = true.
Proof.
  induction l as [|c l IH]; simpl; [done|].
  intros [Hc Hl]%andb_prop. by rewrite (plain_byte_above_dot c Hc), IH.
Qed.

Lemma plain_labels_above_dot (ls : list string) :
  forallb plain_label ls = true -> forallb above_dot (map ToLower ls) = true.
Proof.
  induction ls as [|l ls IH]; simpl; [done|].
  intros [Hl Hls]%andb_prop. by rewrite (plain_label_above_dot l Hl), IH.
Qed.

(** X3: for two names whose labels are written without escapes in ASCII
    bytes above the dot, the order of the keys is the canonical order of the
    names. *)
Theorem toRadixName_order_plain_labels `{NameSyntax} (A B : string) :
  (A = "."%string -> SplitLabels A = []) ->
  (B = "."%string -> SplitLabels B = []) ->
  forallb plain_label (SplitLabels A) = true ->
  forallb plain_label (SplitLabels B) = true ->
  bytes_ltb (toRadixName A) (toRadixName B) = canonical_ltb A B.
Proof.
  intros HA HB HlA HlB.
  apply toRadixName_order_above_dot; [exact HA|exact HB| |].
  - by apply plain_labels_above_dot.
  - by apply plain_labels_above_dot.
Qed.

Lemma toRadixName_order_plain_labels_witness :
  bytes_ltb (@toRadixName spec_syntax "a.Example.") (@toRadixName spec_syntax "b.example.")
  = @canonical_ltb spec_syntax "a.Example." "b.example.".
Proof.
  apply (@toRadixName_order_plain_labels spec_syntax "a.Example." "b.example.").
  - discriminate.
  - discriminate.
  - reflexivity.
  - reflexivity.
Defined.
